(** * Source mapping for settings models

    A shallow embedding of [pydantic_settings/source_mappers.py] and
    [pydantic_settings/source_providers.py].

    Python dictionaries are insertion ordered and are objects with an
    identity.  A dictionary's content is an association list (the order of
    the keys is the insertion order); the dictionaries reachable from the
    source and from the result live in a heap and are referred to by
    location, so that sharing between the source and the result is visible.
    Strings are [string].  [str.lower] and [str.strip] are methods of the
    language: the program is modelled over any pair of functions that act
    on ASCII text as they do (class [Text]). *)

From Stdlib Require Import List String Ascii ZArith Bool Arith Lia.
From stdpp Require Import base list.
Import ListNotations.
Local Open Scope string_scope.
Local Open Scope list_scope.
Local Set Warnings "-register-all".

(** ** Python values *)

(** Values as trees: what a decoder returns, and what a result looks like
    once read back from the heap. *)
Inductive pyval : Type :=
| PNone
| PStr (s : string)
| PInt (z : Z)
| PList (l : list pyval)
| PDict (d : list (string * pyval)).

(** Values as the running program holds them: a dictionary is a reference.
    Lists are never written by this code and stay trees. *)
Inductive hval : Type :=
| HNone
| HStr (s : string)
| HInt (z : Z)
| HList (l : list pyval)
| HRef (l : nat).

Definition truthy (v : pyval) : bool :=
  match v with
  | PNone => false
  | PStr s => negb (String.eqb s EmptyString)
  | PInt z => negb (Z.eqb z 0)
  | PList l => match l with [] => false | _ => true end
  | PDict d => match d with [] => false | _ => true end
  end.

Definition is_none (v : pyval) : bool :=
  match v with PNone => true | _ => false end.

(** [a or b] *)
Definition py_or (a b : pyval) : pyval := if truthy a then a else b.

Definition is_dict (v : hval) : bool :=
  match v with HRef _ => true | _ => false end.

(** ** Dictionaries *)

Section Dict.
Context {V : Type}.

Definition dict := list (string * V).

Fixpoint dict_get (k : string) (d : dict) : option V :=
  match d with
  | [] => None
  | (k', v) :: r => if String.eqb k k' then Some v else dict_get k r
  end.

(** [k in d] *)
Definition dict_mem (k : string) (d : dict) : bool :=
  match dict_get k d with Some _ => true | None => false end.

(** [d[k] = v]: an existing key keeps its position, a new key goes last. *)
Fixpoint dict_set (k : string) (v : V) (d : dict) : dict :=
  match d with
  | [] => [(k, v)]
  | (k', v') :: r =>
      if String.eqb k k' then (k', v) :: r else (k', v') :: dict_set k v r
  end.

(** [d.update(other)] *)
Definition dict_update (d other : dict) : dict :=
  fold_left (fun acc kv => dict_set (fst kv) (snd kv) acc) other d.

Definition dict_keys (d : dict) : list string := map fst d.

Definition dict_is_empty (d : dict) : bool :=
  match d with [] => true | _ => false end.
End Dict.

Arguments dict V : clear implicits.

(** ** Text operations of the language *)

(** On ASCII text [str.lower] turns the letters A to Z into a to z and
    leaves every other character as it is. *)
Definition lower_ascii (c : ascii) : ascii :=
  let n := nat_of_ascii c in
  if Nat.leb 65 n && Nat.leb n 90 then ascii_of_nat (n + 32) else c.

Fixpoint ascii_lower (s : string) : string :=
  match s with
  | EmptyString => EmptyString
  | String c r => String (lower_ascii c) (ascii_lower r)
  end.

(** On ASCII text [str.strip()] removes, at the two ends, the characters for
    which [str.isspace] holds: the tab, the line feed, the vertical tab, the
    form feed, the carriage return, the four separators 28 to 31 and the
    space. *)
Definition is_space (c : ascii) : bool :=
  let n := nat_of_ascii c in
  (Nat.leb 9 n && Nat.leb n 13) || (Nat.leb 28 n && Nat.leb n 32).

Fixpoint lstrip (s : string) : string :=
  match s with
  | EmptyString => EmptyString
  | String c r => if is_space c then lstrip r else s
  end.

Fixpoint rstrip (s : string) : string :=
  match s with
  | EmptyString => EmptyString
  | String c r =>
      match rstrip r with
      | EmptyString => if is_space c then EmptyString else String c EmptyString
      | r' => String c r'
      end
  end.

Definition ascii_strip (s : string) : string := rstrip (lstrip s).

Fixpoint all_space (s : string) : bool :=
  match s with
  | EmptyString => true
  | String c r => is_space c && all_space r
  end.

(** A text all of whose characters are ASCII. *)
Fixpoint ascii_only (s : string) : bool :=
  match s with
  | EmptyString => true
  | String c r => Nat.ltb (nat_of_ascii c) 128 && ascii_only r
  end.

(** A text with one of the letters A to Z. *)
Fixpoint has_upper (s : string) : bool :=
  match s with
  | EmptyString => false
  | String c r =>
      (Nat.leb 65 (nat_of_ascii c) && Nat.leb (nat_of_ascii c) 90) || has_upper r
  end.

(** [str.lower] and [str.strip] are methods of the language, not of this
    code, and outside ASCII they follow the Unicode tables of the
    interpreter.  The program is modelled over any two functions that act on
    ASCII text as the two methods do; nothing else is assumed of them. *)
Class Text : Type := {
  lower : string -> string;
  strip : string -> string;
  lower_ascii_only : forall s, ascii_only s = true -> lower s = ascii_lower s;
  strip_ascii_only : forall s, ascii_only s = true -> strip s = ascii_strip s
}.

(** The two functions when every text is ASCII. *)
Definition ascii_text : Text :=
  {| lower := ascii_lower;
     strip := ascii_strip;
     lower_ascii_only := fun _ _ => eq_refl;
     strip_ascii_only := fun _ _ => eq_refl |}.

(** Two functions that lower-case, besides A to Z, the capital letters of
    Latin-1 (192 to 222, without the sign 215), for texts in that encoding;
    on ASCII text they are the functions above. *)
Definition lower_latin1 (c : ascii) : ascii :=
  let n := nat_of_ascii c in
  if (Nat.leb 65 n && Nat.leb n 90)
     || (Nat.leb 192 n && Nat.leb n 222 && negb (Nat.eqb n 215))
  then ascii_of_nat (n + 32) else c.

Fixpoint latin1_lower (s : string) : string :=
  match s with
  | EmptyString => EmptyString
  | String c r => String (lower_latin1 c) (latin1_lower r)
  end.

Definition latin1_text : Text.
Proof.
  refine {| lower := latin1_lower; strip := ascii_strip;
            lower_ascii_only := _; strip_ascii_only := fun _ _ => eq_refl |}.
  induction s as [|c s IH]; [reflexivity|].
  cbn [ascii_only latin1_lower ascii_lower]. intros H.
  apply andb_prop in H as [Hc Hs]. rewrite (IH Hs). f_equal.
  destruct c as [[] [] [] [] [] [] [] []]; try discriminate Hc; reflexivity.
Defined.

(** ** Field descriptors *)

(** What the mapper reads from a [ModelField] of the model framework:
    - [name], [alias];
    - [extra_env_names]: [field.field_info.extra.get('env_names', [])];
    - [extra_env]: [field.field_info.extra.get('env')] ([PNone] when unset);
    - [is_complex]: [field.is_complex()];
    - [type_is_union]: [is_union(get_origin(field.type_))];
    - [sub_fields]: [field.sub_fields], [None] being the empty list;
    - [type_fields]: [Some fs] when [lenient_issubclass(field.type_,
      BaseModel)], with [fs] the [field.type_.__fields__.values()]. *)
Inductive ModelField : Type :=
  mkField {
    name : string;
    alias : string;
    extra_env_names : list string;
    extra_env : pyval;
    is_complex : bool;
    type_is_union : bool;
    sub_fields : list ModelField;
    type_fields : option (list ModelField)
  }.

(** [field_is_complex]: is the field complex, and if so may a decoding
    error be ignored. *)
Definition field_is_complex (field : ModelField) : bool * bool :=
  if is_complex field then (true, false)
  else if type_is_union field
          && negb (Nat.eqb (length (sub_fields field)) 0)
          && existsb is_complex (sub_fields field)
       then (true, true)
       else (false, false).

(** ** The mapper and its state *)

(** Outcome of the pluggable decoder: a value, a [ValueError] (the only
    exception [get_field_value] catches), or any other exception. *)
Inductive parsed : Type :=
| Parsed (v : pyval)
| ParseValueError
| ParseOtherError.

Record SourceMapper : Type :=
  mkMapper {
    source : dict hval;
    get_field_info : string -> dict pyval;
    case_sensitive : bool;
    nesting_delimiter : option string;
    complex_parser : string -> hval -> parsed
  }.

(** The exceptions that appear: [ParserError] stands for an exception of
    the decoder that is not a [ValueError], [ReadError] for what reading a
    file as text raises ([OSError], [UnicodeDecodeError]). *)
Inductive exn : Type :=
| SettingsError (msg : string)
| ParserError
| AttributeError
| TypeError
| ImportError (msg : string)
| ReadError.

(** The heap of dictionary objects, and the memo of [keymap] ([lru_cache]
    keyed by the mapper). *)
Record state : Type :=
  mkState {
    heap : list (dict hval);
    keymap_cache : option (dict string)
  }.

Inductive result (A : Type) : Type :=
| Ok (a : A)
| Err (e : exn).
Arguments Ok {A} a.
Arguments Err {A} e.

(** Computations that read and write the state and may raise; the state
    written before an exception stays written. *)
Definition M (A : Type) : Type := state -> result A * state.

Definition ret {A} (a : A) : M A := fun st => (Ok a, st).

Definition bind {A B} (c : M A) (k : A -> M B) : M B :=
  fun st =>
    match c st with
    | (Ok a, st') => k a st'
    | (Err e, st') => (Err e, st')
    end.

Definition raise {A} (e : exn) : M A := fun st => (Err e, st).

Declare Scope py_scope.
Delimit Scope py_scope with py.
Notation "x <- c ;; k" := (bind c (fun x => k))
  (at level 100, c at next level, right associativity) : py_scope.
Notation "c ;;; k" := (bind c (fun _ => k))
  (at level 100, right associativity) : py_scope.
Local Open Scope py_scope.

(** The content of the dictionary at a location (a location that was never
    allocated reads as empty and cannot be written). *)
Definition heap_get (h : list (dict hval)) (l : nat) : dict hval :=
  default [] (h !! l).

Definition read (l : nat) : M (dict hval) :=
  fun st => (Ok (heap_get (heap st) l), st).

Definition write (l : nat) (d : dict hval) : M unit :=
  fun st => (Ok tt, mkState (<[l := d]> (heap st)) (keymap_cache st)).

(** A new dictionary object. *)
Definition alloc (d : dict hval) : M nat :=
  fun st => (Ok (length (heap st)), mkState (heap st ++ [d]) (keymap_cache st)).

Section Program.
Context {text_ops : Text}.

(** ** The key index *)

(** [str(source_key) if self.case_sensitive else str(source_key).lower()];
    the keys of a source are strings, on which [str] is the identity. *)
Definition normalize (case_sensitive : bool) (source_key : string) : string :=
  if case_sensitive then source_key else lower source_key.

(** The body of [SourceMapper.keymap]: one pass over the keys of the source
    in their order. *)
Definition build_keymap (case_sensitive : bool) (source_keys : list string)
  : dict string :=
  fold_left
    (fun keydb source_key =>
       let key := normalize case_sensitive source_key in
       if dict_mem key keydb then keydb else dict_set key source_key keydb)
    source_keys [].

(** [self.keymap]: computed on first use, then taken from the memo. *)
Definition keymap (m : SourceMapper) : M (dict string) :=
  fun st =>
    match keymap_cache st with
    | Some keydb => (Ok keydb, st)
    | None =>
        let keydb := build_keymap (case_sensitive m) (dict_keys (source m)) in
        (Ok keydb, mkState (heap st) (Some keydb))
    end.

(** [[body(x) for x in xs]] *)
Definition map_m {A B} (body : A -> M B) : list A -> M (list B) :=
  fix go (xs : list A) : M (list B) :=
    match xs with
    | [] => ret []
    | x :: r => y <- body x ;; ys <- go r ;; ret (y :: ys)
    end.

(** [for x in xs: body(x)] *)
Definition for_each {A} (body : A -> M unit) : list A -> M unit :=
  fix go (xs : list A) : M unit :=
    match xs with
    | [] => ret tt
    | x :: r => body x ;;; go r
    end.

(** A decoded value enters the program: its dictionaries are new objects. *)
Fixpoint alloc_tree (v : pyval) : M hval :=
  match v with
  | PNone => ret HNone
  | PStr s => ret (HStr s)
  | PInt z => ret (HInt z)
  | PList l => ret (HList l)
  | PDict d =>
      entries <- map_m (fun kv => let '(k, x) := kv in
                                  x' <- alloc_tree x ;; ret (k, x')) d ;;
      l <- alloc entries ;;
      ret (HRef l)
  end.

Definition quote : string := String (ascii_of_nat 34) EmptyString.

(** [SettingsError(f'error parsing env var "{key}"')] *)
Definition parse_error (key : string) : exn :=
  SettingsError (("error parsing env var " ++ quote) ++ key ++ quote).

(** [has_env] *)
Definition has_env (m : SourceMapper) (field : ModelField) : bool :=
  let field_info := get_field_info m (name field) in
  let env := py_or (default PNone (dict_get "env" field_info)) (extra_env field) in
  negb (is_none env).

(** What [get_field_value] returns: the [_Empty] marker, the merged
    dictionary (a local object of which the caller reads the items only), or
    a value that is not a dictionary. *)
Inductive response : Type :=
| REmpty
| RDict (d : dict hval)
| RVal (v : hval).

(** [get_field_value], as the loop over [search_radar] with the local
    [dict_result]. *)
Fixpoint get_field_value_loop (m : SourceMapper) (field : ModelField)
    (search_radar : list string) (dict_result : dict hval) : M response :=
  match search_radar with
  | [] =>
      if dict_is_empty dict_result then ret REmpty else ret (RDict dict_result)
  | key :: rest =>
      keydb <- keymap m ;;
      match dict_get key keydb with
      | None => get_field_value_loop m field rest dict_result
      | Some source_key =>
          if String.eqb source_key EmptyString
          then get_field_value_loop m field rest dict_result
          else
            match dict_get source_key (source m) with
            | None | Some HNone => get_field_value_loop m field rest dict_result
            | Some value =>
                let '(is_cplx, is_parse_failure_allowed) := field_is_complex field in
                value' <-
                  (if is_cplx && negb (is_dict value)
                   then
                     match complex_parser m (name field) value with
                     | Parsed t => alloc_tree t
                     | ParseValueError =>
                         if is_parse_failure_allowed then ret value
                         else raise (parse_error key)
                     | ParseOtherError => raise ParserError
                     end
                   else ret value) ;;
                match value' with
                | HRef l =>
                    d <- read l ;;
                    get_field_value_loop m field rest (dict_update dict_result d)
                | _ => ret (RVal value')
                end
            end
      end
  end.

Definition get_field_value (m : SourceMapper) (search_radar : list string)
    (field : ModelField) : M response :=
  get_field_value_loop m field search_radar [].

(** ** Writing into the result *)

(** [target.setdefault(key, {})]: the [{}] is a new object whether or not it
    is stored.  Only a dictionary has the method. *)
Definition py_setdefault (target : hval) (key : string) : M hval :=
  match target with
  | HRef l =>
      fresh <- alloc [] ;;
      d <- read l ;;
      match dict_get key d with
      | Some v => ret v
      | None => write l (dict_set key (HRef fresh) d) ;;; ret (HRef fresh)
      end
  | _ => raise AttributeError
  end.

(** [target.update(items)] *)
Definition py_update (target : hval) (items : dict hval) : M unit :=
  match target with
  | HRef l => d <- read l ;; write l (dict_update d items)
  | _ => raise AttributeError
  end.

(** [target[key] = value] *)
Definition py_setitem (target : hval) (key : string) (value : hval) : M unit :=
  match target with
  | HRef l => d <- read l ;; write l (dict_set key value d)
  | _ => raise TypeError
  end.

(** The truth value of [self.nesting_delimiter]. *)
Definition delimiter_set (m : SourceMapper) : option string :=
  match nesting_delimiter m with
  | Some d => if String.eqb d EmptyString then None else Some d
  | None => None
  end.

(** The search names of a field under a prefix. *)
Definition field_names (m : SourceMapper) (field : ModelField) (prefix : string)
  : list string :=
  let names := extra_env_names field in
  if negb (has_env m field) then map (fun env => (prefix ++ env)%string) names else names.

(** Storing the response of [get_field_value] (lines 95 to 99). *)
Definition store_response (field : ModelField) (result : hval) (r : response)
  : M unit :=
  match r with
  | REmpty => ret tt
  | RDict d =>
      target <- py_setdefault result (alias field) ;;
      py_update target d
  | RVal v => py_setitem result (alias field) v
  end.

(** [update_result_for_field]; the recursion follows the nested models of
    the field's type. *)
Fixpoint update_result_for_field (m : SourceMapper) (field : ModelField)
    (prefix : string) (result : hval) {struct field} : M unit :=
  let names := field_names m field prefix in
  response <- get_field_value m names field ;;
  store_response field result response ;;;
  match type_fields field, delimiter_set m with
  | Some fs, Some delimiter =>
      for_each (fun name =>
        let nesting_prefix := (name ++ delimiter)%string in
        for_each (fun f =>
          sub <- py_setdefault result (alias field) ;;
          update_result_for_field m f nesting_prefix sub) fs) names
  | _, _ => ret tt
  end.

(** [SourceMapper.__call__] *)
Definition call (m : SourceMapper) (fields : list ModelField) : M hval :=
  result <- alloc [] ;;
  for_each (fun field => update_result_for_field m field EmptyString (HRef result)) fields ;;;
  ret (HRef result).

(** ** Reading a value back as a tree *)

Fixpoint reify (fuel : nat) (h : list (dict hval)) (v : hval) : pyval :=
  match v with
  | HNone => PNone
  | HStr s => PStr s
  | HInt z => PInt z
  | HList l => PList l
  | HRef l =>
      match fuel with
      | O => PNone
      | S fuel' => PDict (map (fun kv => (fst kv, reify fuel' h (snd kv))) (heap_get h l))
      end
  end.

(** The outcome of a computation with its result read back. *)
Definition observe (fuel : nat) (r : result hval * state) : result pyval :=
  match r with
  | (Ok v, st) => Ok (reify fuel (heap st) v)
  | (Err e, _) => Err e
  end.

(** A mapper over a source written as a tree: the dictionaries of the source
    are allocated first. *)
Definition load_source (src : list (string * pyval)) : dict hval * state :=
  let fix go (d : list (string * pyval)) (st : state) : dict hval * state :=
    match d with
    | [] => ([], st)
    | (k, x) :: r =>
        match alloc_tree x st with
        | (Ok x', st') => let '(r', st'') := go r st' in ((k, x') :: r', st'')
        | (Err _, st') => go r st'
        end
    end in
  go src (mkState [] None).

(** ** One iteration of the loop of [get_field_value]

    The body of the loop for one search name, with its three exits: the two
    [continue] and the end of the body carry on with the next name, [return]
    leaves with a value.  [loop_cons] below shows that the loop is this body
    iterated. *)
Inductive outcome : Type :=
| OSkip
| OFragment (d : dict hval)
| OScalar (v : hval).

Definition probe (m : SourceMapper) (field : ModelField) (key : string)
  : M outcome :=
  keydb <- keymap m ;;
  match dict_get key keydb with
  | None => ret OSkip
  | Some source_key =>
      if String.eqb source_key EmptyString then ret OSkip
      else
        match dict_get source_key (source m) with
        | None | Some HNone => ret OSkip
        | Some value =>
            let '(is_cplx, is_parse_failure_allowed) := field_is_complex field in
            value' <-
              (if is_cplx && negb (is_dict value)
               then
                 match complex_parser m (name field) value with
                 | Parsed t => alloc_tree t
                 | ParseValueError =>
                     if is_parse_failure_allowed then ret value
                     else raise (parse_error key)
                 | ParseOtherError => raise ParserError
                 end
               else ret value) ;;
            match value' with
            | HRef l => d <- read l ;; ret (OFragment d)
            | _ => ret (OScalar value')
            end
        end
  end.

(** The dictionary a response stands for, and the response for a
    dictionary (lines 142 to 144). *)
Definition items_of (r : response) : dict hval :=
  match r with RDict d => d | _ => [] end.

Definition finish (d : dict hval) : response :=
  if dict_is_empty d then REmpty else RDict d.

Definition is_scalar (r : response) : bool :=
  match r with RVal _ => true | _ => false end.

(** The memo is either unset or holds the index of the mapper's source. *)
Definition cache_ok (m : SourceMapper) (st : state) : Prop :=
  keymap_cache st = None \/
  keymap_cache st = Some (build_keymap (case_sensitive m) (dict_keys (source m))).

(** The state once the index has been asked for. *)
Definition cached (m : SourceMapper) (st : state) : state :=
  mkState (heap st)
    (Some (build_keymap (case_sensitive m) (dict_keys (source m)))).

(** The fragments the search names yield, in order, when every name is
    skipped or yields a dictionary ([None] otherwise). *)
Fixpoint fragments (m : SourceMapper) (field : ModelField)
    (search_radar : list string) (st : state)
  : option (list (dict hval) * state) :=
  match search_radar with
  | [] => Some ([], st)
  | key :: rest =>
      match probe m field key st with
      | (Ok OSkip, st') => fragments m field rest st'
      | (Ok (OFragment d), st') =>
          match fragments m field rest st' with
          | Some (frs, st'') => Some (d :: frs, st'')
          | None => None
          end
      | _ => None
      end
  end.

(** What every computation of the mapper maintains: the memo stays right,
    and the heap only grows. *)
Definition preserves (m : SourceMapper) {A} (c : M A) : Prop :=
  forall st, cache_ok m st ->
    cache_ok m (snd (c st)) /\ length (heap st) <= length (heap (snd (c st))).

(** The mapper with another source. *)
Definition with_source (m : SourceMapper) (src : dict hval) : SourceMapper :=
  mkMapper src (get_field_info m) (case_sensitive m) (nesting_delimiter m)
    (complex_parser m).

(** The resolution of a field raises [e]: in its own search, or, in the
    loops of line 107 over its names and of line 109 over the fields of its
    model, in the resolution of one of these fields, all that comes before
    having returned. *)
Inductive raises_in (m : SourceMapper) (e : exn)
  : ModelField -> string -> hval -> state -> state -> Prop :=
| raises_here field prefix result st st' :
    get_field_value m (field_names m field prefix) field st = (Err e, st') ->
    raises_in m e field prefix result st st'
| raises_below field prefix result st fs delimiter
    names_before name names_after fields_before f fields_after
    response st1 st2 st3 st4 sub st5 st' :
    type_fields field = Some fs ->
    delimiter_set m = Some delimiter ->
    field_names m field prefix = names_before ++ name :: names_after ->
    fs = fields_before ++ f :: fields_after ->
    get_field_value m (field_names m field prefix) field st = (Ok response, st1) ->
    store_response field result response st1 = (Ok tt, st2) ->
    for_each (fun name =>
      for_each (fun f =>
        sub <- py_setdefault result (alias field) ;;
        update_result_for_field m f (name ++ delimiter)%string sub) fs)
      names_before st2 = (Ok tt, st3) ->
    for_each (fun f =>
      sub <- py_setdefault result (alias field) ;;
      update_result_for_field m f (name ++ delimiter)%string sub)
      fields_before st3 = (Ok tt, st4) ->
    py_setdefault result (alias field) st4 = (Ok sub, st5) ->
    raises_in m e f (name ++ delimiter)%string sub st5 st' ->
    raises_in m e field prefix result st st'.

(** * Source providers *)

(** Modelled from the spec: [DotenvType] of [utils.py], a module that is not
    among the sources; one path, or a sequence of paths ("one or more
    dotenv-formatted files"). *)
Inductive DotenvType : Type :=
| DotenvPath (p : string)
| DotenvPaths (ps : list string).

(** What the providers read from the process and the file system:
    [os.environ], [Path.is_file], [Path.expanduser], and [dotenv_values] of
    python-dotenv ([None] when the package cannot be imported).  The calls
    are modelled where they return: what they raise on a file that cannot be
    read or decoded is outside the model, which says what is loaded and not
    when loading succeeds. *)
Record Host : Type :=
  mkHost {
    environ : dict pyval;
    is_file : string -> bool;
    expanduser : string -> string;
    dotenv_values : option (string -> string -> dict pyval)
  }.

Definition paths_truthy (env_file_paths : option DotenvType) : bool :=
  match env_file_paths with
  | None => false
  | Some (DotenvPath p) => negb (String.eqb p EmptyString)
  | Some (DotenvPaths ps) => negb (Nat.eqb (length ps) 0)
  end.

(** The loop of [dotenv_source_provider] over the paths. *)
Definition load_dotenv_files (host : Host)
    (values : string -> string -> dict pyval) (encoding : string)
    (paths : list string) (dotenv_vars : dict pyval) : dict pyval :=
  fold_left
    (fun vars file_path =>
       let file_path := expanduser host file_path in
       if negb (is_file host file_path) then vars
       else dict_update vars (values file_path encoding))
    paths dotenv_vars.

(** [env_file_encoding if env_file_encoding else 'utf8'] *)
Definition effective_encoding (env_file_encoding : option string) : string :=
  match env_file_encoding with
  | Some e => if String.eqb e EmptyString then "utf8" else e
  | None => "utf8"
  end.

Definition dotenv_source_provider (host : Host)
    (env_file_paths : option DotenvType) (env_file_encoding : option string)
  : result (dict pyval) :=
  match dotenv_values host with
  | None =>
      Err (ImportError
        "python-dotenv is not installed, run `pip install pydantic[dotenv]`")
  | Some values =>
      let encoding := effective_encoding env_file_encoding in
      match env_file_paths with
      | None => Ok []
      | Some (DotenvPath p) => Ok (load_dotenv_files host values encoding [p] [])
      | Some (DotenvPaths ps) => Ok (load_dotenv_files host values encoding ps [])
      end
  end.

(** [env_source_provider]; [None] for the encoding is the argument left
    out. *)
Definition env_source_provider (host : Host)
    (env_file_paths : option DotenvType) (env_file_encoding : option string)
  : result (dict pyval) :=
  let encoding := default "utf8" env_file_encoding in
  let loaded :=
    if paths_truthy env_file_paths
    then
      match dotenv_source_provider host env_file_paths (Some encoding) with
      | Ok vars => Ok (dict_update [] vars)
      | Err e => Err e
      end
    else Ok [] in
  match loaded with
  | Ok env_vars => Ok (dict_update (dict_update [] env_vars) (environ host))
  | Err e => Err e
  end.

(** * Sample fields, mappers and hosts *)

(** A decoder given by a table from texts to values; a text outside the
    table is not valid, and only texts are decoded. *)
Definition table_parser (table : list (string * pyval))
    (_ : string) (value : hval) : parsed :=
  match value with
  | HStr s =>
      match dict_get s table with
      | Some v => Parsed v
      | None => ParseValueError
      end
  | _ => ParseOtherError
  end.

Definition simple_field (n : string) (env_names : list string) : ModelField :=
  mkField n n env_names PNone false false [] None.

Definition complex_field (n : string) (env_names : list string) : ModelField :=
  mkField n n env_names PNone true false [] None.

(** A union of a simple and of a complex type. *)
Definition union_field (n : string) (env_names : list string) : ModelField :=
  mkField n n env_names PNone false true
    [simple_field n env_names; complex_field n env_names] None.

(** A field whose type is a model with the given fields. *)
Definition model_field (n : string) (env_names : list string)
    (fs : list ModelField) : ModelField :=
  mkField n n env_names PNone true false [] (Some fs).

Definition no_field_info (_ : string) : dict pyval := [].

(** A mapper over a source written as a tree, with the state in which the
    dictionaries of the source exist. *)
Definition mapper_over (src : list (string * pyval)) (case_sensitive : bool)
    (nesting_delimiter : option string) (table : list (string * pyval))
  : SourceMapper * state :=
  let '(s, st) := load_source src in
  (mkMapper s no_field_info case_sensitive nesting_delimiter (table_parser table),
   st).

(** Two calls in a row on one mapper, each result read back when the call
    returns. *)
Definition call_twice (ms : SourceMapper * state) (fields : list ModelField)
  : result pyval * result pyval :=
  let '(m, st) := ms in
  let r1 := call m fields st in
  let r2 := call m fields (snd r1) in
  (observe 8 r1, observe 8 r2).

Definition call_once (ms : SourceMapper * state) (fields : list ModelField)
  : result pyval :=
  let '(m, st) := ms in observe 8 (call m fields st).

(** The response of [get_field_value] on a mapper with its state. *)
Definition get_value (ms : SourceMapper * state) (search_radar : list string)
    (field : ModelField) : result response :=
  fst (get_field_value (fst ms) search_radar field (snd ms)).

(** Source [{"B": "2", "A": "1"}]. *)
Definition precedence_mapper (case_sensitive : bool) : SourceMapper * state :=
  mapper_over [("B", PStr "2"); ("A", PStr "1")] case_sensitive None [].


(** A source with the empty key, holding "hidden", and the key "a". *)
Definition empty_key_mapper : SourceMapper * state :=
  mapper_over [(EmptyString, PStr "hidden"); ("a", PStr "1")] false None [].

(** A source with a dictionary under "X_SUB" and, under "X_MORE", a text
    that the decoder turns into a dictionary. *)
Definition split_mapper : SourceMapper * state :=
  mapper_over
    [("X_SUB", PDict [("a", PInt 1)]); ("X_MORE", PStr "{a: 2, b: 3}")]
    true None
    [("{a: 2, b: 3}", PDict [("a", PInt 2); ("b", PInt 3)])].

(** Source [{"V": "not json"}], with a decoder that knows no text. *)
Definition broken_mapper : SourceMapper * state :=
  mapper_over [("V", PStr "not json")] true None [].

(** Source [{"A__B__OPTS": "not json"}] with the delimiter "__" and a
    decoder that knows no text; the field "a" is a model whose field "b" is
    a model whose field "opts" is complex. *)
Definition deep_broken_mapper : SourceMapper * state :=
  mapper_over [("A__B__OPTS", PStr "not json")] true (Some "__") [].

Definition deep_field : ModelField :=
  model_field "a" ["A"] [model_field "b" ["B"] [complex_field "opts" ["OPTS"]]].





(** Source [{"DB__HOST": "localhost"}] with the delimiter "__", and the
    field "db" whose model has the field "host". *)
Definition db_mapper (case_sensitive : bool) : SourceMapper * state :=
  mapper_over [("DB__HOST", PStr "localhost")] case_sensitive (Some "__") [].


(** An empty source with the delimiter "__", and a model field with
    lower-cased names. *)
Definition empty_mapper : SourceMapper * state :=
  mapper_over [] false (Some "__") [].

Definition unmatched_field : ModelField :=
  model_field "db" ["db"] [simple_field "host" ["host"]].

(** A source that holds a nested dictionary under "a", and flat keys for
    the field "f" of the model under "b"; "b" is declared with the two
    names "a__b" and "a__bb" ([env=["a__b", "a__bb"]]). *)
Definition shared_mapper : SourceMapper * state :=
  mapper_over
    [("a", PDict [("b", PDict [])]);
     ("a__b__f", PDict [("x", PInt 1)]);
     ("a__bb__f", PStr "5")]
    false (Some "__") [].

Definition shared_fields : list ModelField :=
  [model_field "a" ["a"]
     [mkField "b" "b" ["a__b"; "a__bb"] (PList [PStr "a__b"; PStr "a__bb"])
        true false [] (Some [simple_field "f" ["f"]])]].

(** A host with the variable "K" in the environment and the file ".env",
    which sets "K" and "ONLY_FILE"; "missing.env" does not exist. *)
Definition sample_host : Host :=
  mkHost
    [("K", PStr "from the environment")]
    (fun p => String.eqb p ".env")
    (fun p => p)
    (Some (fun p _ =>
             if String.eqb p ".env"
             then [("K", PStr "from the file"); ("ONLY_FILE", PStr "1")]
             else [])).

(** A union whose branches are both complex, such as a list or a
    dictionary: the field itself is not complex. *)
Definition complex_union_field : ModelField :=
  mkField "v" "v" ["V"] PNone false true
    [complex_field "v" ["V"]; complex_field "v" ["V"]] None.

(** A list of a union with a simple branch: the field is complex by its
    shape, and its type is the union. *)
Definition list_of_union_field : ModelField :=
  mkField "v" "v" ["V"] PNone true true [union_field "v" ["V"]] None.

(** * Secrets *)

(** What a [SecretSource] reads from the file system, for a directory that
    can be listed: the names of its entries in the order of [Path.iterdir],
    whether an entry is a file ([Path.is_file]), and the text of an entry
    ([Path.read_text]), which may raise.  When the listing raises,
    [__init__] raises and there is no [SecretSource] to speak of. *)
Record FileSystem : Type :=
  mkFileSystem {
    fs_iterdir : string -> list string;
    fs_is_file : string -> string -> bool;
    fs_read_text : string -> string -> result string
  }.

(** [SecretSource]: the directory and [_valid_paths], which maps the name of
    an entry to the entry (an entry of the directory is given by its name). *)
Record SecretSource : Type :=
  mkSecretSource {
    secrets_dir_path : string;
    valid_paths : dict string
  }.

(** [SecretSource.__init__] *)
Definition new_secret_source (fs : FileSystem) (dir : string) : SecretSource :=
  mkSecretSource dir
    (fold_left
       (fun paths f => if fs_is_file fs dir f then dict_set f f paths else paths)
       (fs_iterdir fs dir) []).

(** [SecretSource.__getitem__]: [Ok None] is the value [None] that the
    method returns when the name is not in [_valid_paths], for which it has
    no [raise]; an exception of [read_text] is not caught. *)
Definition secret_getitem (fs : FileSystem) (s : SecretSource) (key : string)
  : result (option string) :=
  match dict_get key (valid_paths s) with
  | Some f =>
      match fs_read_text fs (secrets_dir_path s) f with
      | Ok text => Ok (Some (strip text))
      | Err e => Err e
      end
  | None => Ok None
  end.

(** [SecretSource.__iter__] and [SecretSource.__len__] *)
Definition secret_iter (s : SecretSource) : list string :=
  dict_keys (valid_paths s).

Definition secret_len (s : SecretSource) : nat := length (valid_paths s).

(** * Reference functions *)

(** The value a search name stands for: the one the source holds under the
    key that the index gives for the name, when there is such a key, it is
    not empty and the value is not [None]. *)
Definition lookup_value (m : SourceMapper) (key : string) : option hval :=
  match dict_get key (build_keymap (case_sensitive m) (dict_keys (source m))) with
  | None => None
  | Some source_key =>
      if String.eqb source_key EmptyString then None
      else match dict_get source_key (source m) with
           | None | Some HNone => None
           | Some value => Some value
           end
  end.

(** The first search name that stands for a value. *)
Fixpoint first_value (m : SourceMapper) (names : list string) : option hval :=
  match names with
  | [] => None
  | key :: rest =>
      match lookup_value m key with
      | Some v => Some v
      | None => first_value m rest
      end
  end.

(** A top-level field is given its first value, if it has one. *)
Definition assign_first (m : SourceMapper) (d : dict hval) (f : ModelField)
  : dict hval :=
  match first_value m (field_names m f EmptyString) with
  | Some v => dict_set (alias f) v d
  | None => d
  end.




(** A source none of whose values is a dictionary, and a field that is
    neither complex, nor a union with a complex branch, nor a model. *)
Definition flat_source (m : SourceMapper) : Prop :=
  Forall (fun kv => is_dict (snd kv) = false) (source m).

Definition plain_field (f : ModelField) : Prop :=
  fst (field_is_complex f) = false /\ type_fields f = None.

(** The mapper with another decoder, and with another delimiter. *)
Definition with_parser (m : SourceMapper) (parser : string -> hval -> parsed)
  : SourceMapper :=
  mkMapper (source m) (get_field_info m) (case_sensitive m)
    (nesting_delimiter m) parser.

Definition with_delimiter (m : SourceMapper) (delimiter : option string)
  : SourceMapper :=
  mkMapper (source m) (get_field_info m) (case_sensitive m) delimiter
    (complex_parser m).

(** The decoding step of [get_field_value] for a value found in the source
    (lines 124 to 132). *)
Definition decode_value (m : SourceMapper) (field : ModelField) (key : string)
    (value : hval) : M hval :=
  let '(is_cplx, is_parse_failure_allowed) := field_is_complex field in
  if is_cplx && negb (is_dict value)
  then
    match complex_parser m (name field) value with
    | Parsed t => alloc_tree t
    | ParseValueError =>
        if is_parse_failure_allowed then ret value else raise (parse_error key)
    | ParseOtherError => raise ParserError
    end
  else ret value.

(** A decoded value that is not a dictionary, as the program holds it. *)
Definition leaf (t : pyval) : hval :=
  match t with
  | PNone => HNone
  | PStr s => HStr s
  | PInt z => HInt z
  | PList l => HList l
  | PDict _ => HNone
  end.

Definition is_pdict (t : pyval) : bool :=
  match t with PDict _ => true | _ => false end.

(** Source [{"a": None, "b": "2", "n": "[1, 2]", "z": "null"}], with a
    decoder for the two texts, and one that raises another exception than
    [ValueError] on every value. *)
Definition texts_mapper : SourceMapper * state :=
  mapper_over
    [("a", PNone); ("b", PStr "2"); ("n", PStr "[1, 2]"); ("z", PStr "null")]
    false None
    [("[1, 2]", PList [PInt 1; PInt 2]); ("null", PNone)].

Definition failing_mapper : SourceMapper * state :=
  (with_parser (fst texts_mapper) (fun _ _ => ParseOtherError), snd texts_mapper).

(** A field with an explicit [env], and a mapper whose [get_field_info]
    gives an [env] for the field "named". *)
Definition env_field (n : string) (env_names : list string) : ModelField :=
  mkField n n env_names (PList (map PStr env_names)) false false [] None.

Definition configured_mapper : SourceMapper * state :=
  let '(s, st) := load_source [("top", PStr "1"); ("p__top", PStr "2")] in
  (mkMapper s
     (fun n => if String.eqb n "named" then [("env", PStr "top")] else [])
     false (Some "__") (table_parser []),
   st).

(** A computation that only adds dictionaries to the heap and writes to none
    of those that exist. *)
Definition appends {A} (c : M A) : Prop :=
  forall st, exists more, heap (snd (c st)) = heap st ++ more.

(** A source with a dictionary under "b", and a result dictionary, at
    location 1, that holds a text under "v" and a dictionary, at location 2,
    under "w". *)
Definition mixed_mapper : SourceMapper * state :=
  let '(s, _) := load_source [("b", PDict [("x", PInt 1)]); ("c", PStr "3")] in
  (mkMapper s no_field_info false None (table_parser []),
   mkState
     [[("x", HInt 1)]; [("v", HStr "1"); ("w", HRef 2)]; [("y", HInt 0); ("x", HInt 0)]]
     None).

(** The field with another type for what concerns nested models. *)
Definition with_type_fields (f : ModelField) (fs : option (list ModelField))
  : ModelField :=
  mkField (name f) (alias f) (extra_env_names f) (extra_env f) (is_complex f)
    (type_is_union f) (sub_fields f) fs.

(** A source whose values are dictionaries or [None]. *)
Definition mappings_mapper : SourceMapper * state :=
  mapper_over
    [("a", PDict [("x", PInt 1)]); ("b", PNone); ("a__y", PDict [("z", PStr "t")])]
    false (Some "__") [].

(** An environment-like source, and plain fields. *)
Definition environment_mapper : SourceMapper * state :=
  mapper_over
    [("HOST", PStr "localhost"); ("port", PStr "80"); ("Port", PStr "81");
     ("debug", PNone)]
    false None [].

Definition environment_fields : list ModelField :=
  [simple_field "host" ["host"]; simple_field "port" ["p"; "port"];
   simple_field "debug" ["debug"]; simple_field "host" ["port"]].

(** A host without python-dotenv. *)
Definition bare_host : Host :=
  mkHost [("K", PStr "from the environment")] (fun _ => true) (fun p => p) None.

(** A host whose environment has "API_KEY" and "HOME", with two files: "a.env"
    sets "api_key" and "MODE", "b.env" sets "MODE" again. *)
Definition two_files_host : Host :=
  mkHost
    [("API_KEY", PStr "from the environment"); ("HOME", PStr "/root")]
    (fun p => String.eqb p "a.env" || String.eqb p "b.env")
    (fun p => p)
    (Some (fun p _ =>
             if String.eqb p "a.env"
             then [("api_key", PStr "from a.env"); ("MODE", PStr "a")]
             else if String.eqb p "b.env" then [("MODE", PStr "b")]
             else [])).

(** The paths, as the loop of [dotenv_source_provider] goes through them. *)
Definition paths_of (env_file_paths : option DotenvType) : list string :=
  match env_file_paths with
  | None => []
  | Some (DotenvPath p) => [p]
  | Some (DotenvPaths ps) => ps
  end.

Definition newline : string := String (ascii_of_nat 10) EmptyString.

(** A directory "/run/secrets" with the files "password" and "Token" and
    the directory "nested"; "Token" cannot be read as text. *)
Definition sample_fs : FileSystem :=
  mkFileSystem
    (fun p => if String.eqb p "/run/secrets"
              then ["password"; "nested"; "Token"] else [])
    (fun _ f => negb (String.eqb f "nested"))
    (fun _ f => if String.eqb f "password"
                then Ok (" secret" ++ newline)%string
                else if String.eqb f "Token" then Err ReadError
                else Ok EmptyString).

(** * Properties *)

(** ** Dictionaries *)

Section DictFacts.
Context {V : Type}.
Implicit Types (d a b c : dict V) (k : string) (v : V).

Lemma dict_get_Some_keys k d v : dict_get k d = Some v -> k ∈ dict_keys d.
Proof.
  induction d as [|[k' v'] d IH]; simpl; [discriminate|].
  rewrite elem_of_cons.
  destruct (String.eqb_spec k k'); auto.
Qed.

Lemma dict_get_None k d : dict_get k d = None <-> k ∉ dict_keys d.
Proof.
  induction d as [|[k' v'] d IH]; simpl.
  - split; [intros _; apply not_elem_of_nil | reflexivity].
  - rewrite not_elem_of_cons.
    destruct (String.eqb_spec k k'); subst.
    + split; [discriminate | intros [H _]; congruence].
    + rewrite IH. tauto.
Qed.

Lemma dict_mem_keys k d : dict_mem k d = true <-> k ∈ dict_keys d.
Proof.
  unfold dict_mem. destruct (dict_get k d) eqn:E.
  - split; [intros _; eapply dict_get_Some_keys; eauto | reflexivity].
  - apply dict_get_None in E. split; [discriminate | tauto].
Qed.

Lemma dict_get_set_eq k v d : dict_get k (dict_set k v d) = Some v.
Proof.
  induction d as [|[k' v'] d IH]; simpl.
  - now rewrite String.eqb_refl.
  - destruct (String.eqb_spec k k') as [->|Hne]; simpl.
    + now rewrite String.eqb_refl.
    + destruct (String.eqb_spec k k'); [contradiction | exact IH].
Qed.

Lemma dict_get_set_ne k k' v d :
  k <> k' -> dict_get k (dict_set k' v d) = dict_get k d.
Proof.
  intros Hne. induction d as [|[k0 v0] d IH]; simpl.
  - destruct (String.eqb_spec k k'); [contradiction | reflexivity].
  - destruct (String.eqb_spec k' k0) as [->|Hne']; simpl.
    + destruct (String.eqb_spec k k0); [contradiction | reflexivity].
    + destruct (String.eqb_spec k k0); [reflexivity | exact IH].
Qed.

Lemma dict_keys_set k v d :
  dict_keys (dict_set k v d) =
  if dict_mem k d then dict_keys d else dict_keys d ++ [k].
Proof.
  unfold dict_mem.
  induction d as [|[k' v'] d IH]; simpl; [reflexivity|].
  destruct (String.eqb_spec k k') as [->|Hne]; simpl; [reflexivity|].
  rewrite IH. now destruct (dict_get k d).
Qed.

Lemma NoDup_dict_set k v d :
  NoDup (dict_keys d) -> NoDup (dict_keys (dict_set k v d)).
Proof.
  intros H. rewrite dict_keys_set.
  destruct (dict_mem k d) eqn:E; [exact H|].
  apply NoDup_app; repeat split; [exact H | | apply NoDup_singleton].
  intros x Hx Hk. apply list_elem_of_singleton in Hk.
  subst x. apply dict_mem_keys in Hx. congruence.
Qed.

Lemma NoDup_dict_update a b :
  NoDup (dict_keys a) -> NoDup (dict_keys (dict_update a b)).
Proof.
  unfold dict_update. revert a.
  induction b as [|[k v] b IH]; simpl; intros a H; [exact H|].
  apply IH, NoDup_dict_set, H.
Qed.

Lemma dict_update_app a b c :
  dict_update a (b ++ c) = dict_update (dict_update a b) c.
Proof. unfold dict_update. apply fold_left_app. Qed.

Lemma dict_get_app k a b :
  dict_get k (a ++ b) =
  match dict_get k a with Some v => Some v | None => dict_get k b end.
Proof.
  induction a as [|[k0 v0] a IH]; simpl; [reflexivity|].
  now destruct (String.eqb k k0).
Qed.

(** The last pair written for a key is the one that stays. *)
Lemma dict_get_update k a b :
  dict_get k (dict_update a b) =
  match dict_get k (rev b) with
  | Some v => Some v
  | None => dict_get k a
  end.
Proof.
  revert a. induction b as [|[k' v'] b IH] using rev_ind; intros a.
  - reflexivity.
  - rewrite dict_update_app, rev_app_distr. simpl.
    destruct (String.eqb_spec k k') as [->|Hne].
    + apply dict_get_set_eq.
    + rewrite dict_get_set_ne by exact Hne. apply IH.
Qed.

Lemma dict_get_rev k d :
  NoDup (dict_keys d) -> dict_get k (rev d) = dict_get k d.
Proof.
  induction d as [|[k' v'] d IH]; simpl; intros H; [reflexivity|].
  apply NoDup_cons in H as [Hnin Hnd].
  rewrite dict_get_app, IH by exact Hnd. simpl.
  destruct (String.eqb_spec k k') as [->|Hne].
  - apply dict_get_None in Hnin. now rewrite Hnin.
  - now destruct (dict_get k d).
Qed.

End DictFacts.

(** ** The key index *)

Lemma has_upper_ascii_lower s : has_upper (ascii_lower s) = false.
Proof.
  induction s as [|c s IH]; [reflexivity|].
  cbn [ascii_lower has_upper]. rewrite IH, orb_false_r.
  destruct c as [[] [] [] [] [] [] [] []]; reflexivity.
Qed.



Section Keymap.
Variable case_sensitive : bool.

Local Abbreviation step :=
  (fun (keydb : dict string) (source_key : string) =>
     let key := normalize case_sensitive source_key in
     if dict_mem key keydb then keydb else dict_set key source_key keydb)
  (only parsing).

Local Abbreviation first_with n source_keys :=
  (find (fun k => String.eqb (normalize case_sensitive k) n) source_keys)
  (only parsing).

Lemma keymap_fold_get source_keys keydb n :
  dict_get n (fold_left step source_keys keydb) =
  match dict_get n keydb with
  | Some k => Some k
  | None => first_with n source_keys
  end.
Proof.
  revert keydb. induction source_keys as [|sk ks IH]; intros keydb; simpl.
  - now destruct (dict_get n keydb).
  - rewrite IH. unfold dict_mem. simpl.
    destruct (String.eqb_spec (normalize case_sensitive sk) n) as [<-|Hne].
    + destruct (dict_get (normalize case_sensitive sk) keydb) eqn:E.
      * now rewrite E.
      * now rewrite dict_get_set_eq.
    + destruct (dict_get (normalize case_sensitive sk) keydb);
        [reflexivity|].
      rewrite dict_get_set_ne by congruence. reflexivity.
Qed.

Lemma keymap_fold_NoDup source_keys keydb :
  NoDup (dict_keys keydb) ->
  NoDup (dict_keys (fold_left step source_keys keydb)).
Proof.
  revert keydb. induction source_keys as [|sk ks IH]; intros keydb H; simpl.
  - exact H.
  - apply IH.
    destruct (dict_mem _ keydb); [exact H | apply NoDup_dict_set, H].
Qed.

Lemma build_keymap_get source_keys n :
  dict_get n (build_keymap case_sensitive source_keys) = first_with n source_keys.
Proof. unfold build_keymap. apply (keymap_fold_get source_keys [] n). Qed.

Lemma first_with_Some n source_keys k :
  first_with n source_keys = Some k ->
  k ∈ source_keys /\ normalize case_sensitive k = n.
Proof.
  intros H. apply find_some in H as [Hin Heq].
  apply String.eqb_eq in Heq. split; [now apply list_elem_of_In | exact Heq].
Qed.

Lemma first_with_None n source_keys :
  first_with n source_keys = None ->
  forall k, k ∈ source_keys -> normalize case_sensitive k <> n.
Proof.
  intros H k Hin Heq.
  apply list_elem_of_In in Hin.
  pose proof (find_none _ _ H k Hin) as Hk. simpl in Hk.
  apply String.eqb_neq in Hk. contradiction.
Qed.

Lemma first_with_app_first pre k post :
  (forall k', k' ∈ pre -> normalize case_sensitive k' <> normalize case_sensitive k) ->
  first_with (normalize case_sensitive k) (pre ++ k :: post) = Some k.
Proof.
  induction pre as [|p pre IH]; simpl; intros H.
  - now rewrite String.eqb_refl.
  - destruct (String.eqb_spec (normalize case_sensitive p) (normalize case_sensitive k)) as [E|_].
    + exfalso. apply (H p); [apply elem_of_cons; now left | exact E].
    + apply IH. intros k' Hk'. apply H, elem_of_cons. now right.
Qed.
(** A key whose normal form is the one of an earlier key changes nothing. *)
Lemma build_keymap_later pre k post :
  (exists k', k' ∈ pre /\ normalize case_sensitive k' = normalize case_sensitive k) ->
  build_keymap case_sensitive (pre ++ k :: post) = build_keymap case_sensitive (pre ++ post).
Proof.
  intros (k' & Hin & Heq). unfold build_keymap.
  rewrite !fold_left_app. cbn [fold_left]. cbv beta zeta.
  assert (E : dict_mem (normalize case_sensitive k) (fold_left step pre []) = true).
  { pose proof (keymap_fold_get pre [] (normalize case_sensitive k)) as G.
    cbn [dict_get] in G.
    destruct (find _ pre) eqn:E in G.
    - unfold dict_mem at 1. cbv zeta in G. now rewrite G.
    - exfalso. exact (first_with_None _ _ E k' Hin Heq). }
  cbv zeta in E. now rewrite E.
Qed.
End Keymap.

(** C2.  The key index has one entry for each normal form of a key of the
    source, and no other entry, where the normal form of a key is the key
    itself in the case-sensitive mode and its lower-cased form otherwise.
    The entry of a normal form points at the first key of the source, in
    its order, with that normal form; a key whose normal form is the one of
    an earlier key leaves no trace: the index is the one of the source
    without that key.  Building the index never fails.  Over ASCII keys, in
    the case-insensitive mode, no key of the index has an upper-case
    letter. *)
Theorem keymap_first_key_wins (case_sensitive : bool) (source_keys : list string) :
  let keydb := build_keymap case_sensitive source_keys in
  let normal := fun k => if case_sensitive then k else lower k in
  NoDup (dict_keys keydb)
  /\ (forall n, n ∈ dict_keys keydb <->
                exists k, k ∈ source_keys /\ normal k = n)
  /\ (forall n, dict_get n keydb =
                find (fun k => String.eqb (normal k) n) source_keys)
  /\ (forall pre k post, source_keys = pre ++ k :: post ->
        (forall k', k' ∈ pre -> normal k' <> normal k) ->
        dict_get (normal k) keydb = Some k)
  /\ (forall pre k post, source_keys = pre ++ k :: post ->
        (exists k', k' ∈ pre /\ normal k' = normal k) ->
        keydb = build_keymap case_sensitive (pre ++ post))
  /\ (case_sensitive = false ->
      Forall (fun k => ascii_only k = true) source_keys ->
      forall n, n ∈ dict_keys keydb -> has_upper n = false).
Proof.
  intros keydb normal. subst keydb.
  assert (Hget : forall n,
    dict_get n (build_keymap case_sensitive source_keys) =
    find (fun k => String.eqb (normal k) n) source_keys)
    by (intros n; apply build_keymap_get).
  assert (Hkeys : forall n,
    n ∈ dict_keys (build_keymap case_sensitive source_keys) <->
    exists k, k ∈ source_keys /\ normal k = n).
  { intros n. split.
    - intros Hin. apply dict_mem_keys in Hin. unfold dict_mem in Hin.
      destruct (dict_get n _) as [k|] eqn:E; [|discriminate].
      rewrite build_keymap_get in E. exists k.
      exact (first_with_Some case_sensitive _ _ _ E).
    - intros (k & Hin & Heq).
      destruct (dict_get n (build_keymap case_sensitive source_keys)) as [k0|] eqn:E.
      + eapply dict_get_Some_keys, E.
      + rewrite build_keymap_get in E.
        exfalso. exact (first_with_None case_sensitive _ _ E k Hin Heq). }
  split; [apply keymap_fold_NoDup, NoDup_nil_2|].
  split; [exact Hkeys|].
  split; [exact Hget|].
  split; [|split].
  - intros pre k post -> H. rewrite build_keymap_get.
    exact (first_with_app_first case_sensitive pre k post H).
  - intros pre k post -> H.
    exact (build_keymap_later case_sensitive pre k post H).
  - intros -> Hascii n Hn. apply Hkeys in Hn as (k & Hin & <-).
    assert (Hk : ascii_only k = true).
    { rewrite List.Forall_forall in Hascii. apply Hascii.
      now apply list_elem_of_In. }
    subst normal. cbn beta iota. rewrite (lower_ascii_only k Hk).
    apply has_upper_ascii_lower.
Qed.

(** ** The loop of [get_field_value] *)

Section Loop.
Variable m : SourceMapper.
Variable field : ModelField.

Local Abbreviation keydb :=
  (build_keymap (case_sensitive m) (dict_keys (source m))) (only parsing).

Lemma keymap_run st : cache_ok m st -> keymap m st = (Ok keydb, cached m st).
Proof.
  unfold cache_ok, keymap, cached. destruct st as [h c]; simpl.
  intros [->| ->]; reflexivity.
Qed.

Lemma cache_ok_cached st : cache_ok m (cached m st).
Proof. right. reflexivity. Qed.

(** The loop is [probe] iterated. *)
Lemma loop_cons key rest acc st :
  get_field_value_loop m field (key :: rest) acc st =
  match probe m field key st with
  | (Ok OSkip, st') => get_field_value_loop m field rest acc st'
  | (Ok (OFragment d), st') =>
      get_field_value_loop m field rest (dict_update acc d) st'
  | (Ok (OScalar v), st') => (Ok (RVal v), st')
  | (Err e, st') => (Err e, st')
  end.
Proof.
  cbn [get_field_value_loop]. unfold probe, bind.
  destruct (keymap m st) as [[kb|e] st1]; [|reflexivity].
  destruct (dict_get key kb) as [sk|]; [|reflexivity].
  destruct (String.eqb sk EmptyString); [reflexivity|].
  destruct (dict_get sk (source m)) as [value|]; [|reflexivity].
  destruct (field_is_complex field) as [c a].
  destruct value; try reflexivity;
    match goal with
    | |- context [if ?b then _ else _] => destruct b
    end;
    repeat match goal with
    | |- context [match complex_parser ?x ?y ?z with _ => _ end] =>
        destruct (complex_parser x y z)
    | |- context [alloc_tree ?t ?s] =>
        destruct (alloc_tree t s) as [[[]|] ?]
    | |- context [if a then _ else _] => destruct a
    end; reflexivity.
Qed.

Lemma loop_nil acc st :
  get_field_value_loop m field [] acc st = (Ok (finish acc), st).
Proof. unfold finish. simpl. now destruct (dict_is_empty acc). Qed.

Lemma finish_not_scalar d : is_scalar (finish d) = false.
Proof. unfold finish. now destruct (dict_is_empty d). Qed.

(** Names after the first ones are searched from where those stopped. *)
Lemma loop_app pre post acc st :
  get_field_value_loop m field (pre ++ post) acc st =
  match get_field_value_loop m field pre acc st with
  | (Ok (RVal v), st') => (Ok (RVal v), st')
  | (Ok r, st') => get_field_value_loop m field post (items_of r) st'
  | (Err e, st') => (Err e, st')
  end.
Proof.
  revert acc st. induction pre as [|key pre IH]; intros acc st.
  - rewrite loop_nil. simpl app. unfold finish. now destruct acc.
  - simpl app. rewrite !loop_cons.
    destruct (probe m field key st) as [[[| d | v]|e] st1];
      try reflexivity; apply IH.
Qed.

(** A value returned for a name does not depend on what was merged before
    nor on the names that follow. *)
Lemma loop_scalar_first key acc st v st' :
  get_field_value_loop m field [key] acc st = (Ok (RVal v), st') ->
  forall acc' post,
    get_field_value_loop m field (key :: post) acc' st = (Ok (RVal v), st').
Proof.
  intros H acc' post. rewrite loop_cons in H |- *.
  destruct (probe m field key st) as [[[| d | v0]|e] st1];
    try rewrite loop_nil in H; try exact H.
  - pose proof (finish_not_scalar acc) as F. inversion H as [[E E']].
    rewrite E in F. discriminate.
  - pose proof (finish_not_scalar (dict_update acc d)) as F.
    inversion H as [[E E']]. rewrite E in F. discriminate.
Qed.

Lemma loop_fragments names : forall acc st frs st',
  fragments m field names st = Some (frs, st') ->
  get_field_value_loop m field names acc st =
  (Ok (finish (fold_left dict_update frs acc)), st').
Proof.
  induction names as [|key names IH]; intros acc st frs st' H.
  - inversion H; subst. apply loop_nil.
  - rewrite loop_cons. cbn [fragments] in H.
    destruct (probe m field key st) as [[[| d | v]|e] st1]; try discriminate.
    + now apply IH.
    + destruct (fragments m field names st1) as [[frs' st'']|] eqn:E;
        [|discriminate].
      inversion H; subst. simpl. now apply IH.
Qed.

(** *** One name *)

Lemma probe_absent key st :
  cache_ok m st -> dict_get key keydb = None ->
  probe m field key st = (Ok OSkip, cached m st).
Proof.
  intros Hc Hk. unfold probe, bind. rewrite (keymap_run st Hc).
  now rewrite Hk.
Qed.

Lemma probe_falsy_key key st :
  cache_ok m st -> dict_get key keydb = Some EmptyString ->
  probe m field key st = (Ok OSkip, cached m st).
Proof.
  intros Hc Hk. unfold probe, bind. rewrite (keymap_run st Hc).
  now rewrite Hk.
Qed.

Section Found.
Variables (key source_key : string) (raw : hval) (st : state).
Hypothesis Hcache : cache_ok m st.
Hypothesis Hkey : dict_get key keydb = Some source_key.
Hypothesis Hsk : source_key <> EmptyString.
Hypothesis Hraw : dict_get source_key (source m) = Some raw.
Hypothesis Hnot_none : raw <> HNone.

Lemma probe_enter : forall (k : hval -> M outcome) (none : M outcome),
  (keydb' <- keymap m ;;
   match dict_get key keydb' with
   | None => ret OSkip
   | Some sk =>
       if String.eqb sk EmptyString then ret OSkip
       else match dict_get sk (source m) with
            | None => none
            | Some HNone => none
            | Some value => k value
            end
   end) st = k raw (cached m st).
Proof.
  intros k none. unfold bind. rewrite (keymap_run st Hcache).
  rewrite Hkey.
  apply String.eqb_neq in Hsk. rewrite Hsk, Hraw.
  destruct raw; try reflexivity. congruence.
Qed.

Lemma probe_mapping l :
  raw = HRef l ->
  probe m field key st = (Ok (OFragment (heap_get (heap st) l)), cached m st).
Proof.
  intros E. unfold probe.
  rewrite (probe_enter (fun value =>
    let '(is_cplx, is_parse_failure_allowed) := field_is_complex field in _)).
  rewrite E. destruct (field_is_complex field) as [c a].
  simpl. rewrite andb_false_r. reflexivity.
Qed.

Lemma probe_plain :
  is_dict raw = false -> fst (field_is_complex field) = false ->
  probe m field key st = (Ok (OScalar raw), cached m st).
Proof.
  intros Hd Hc. unfold probe.
  rewrite (probe_enter (fun value =>
    let '(is_cplx, is_parse_failure_allowed) := field_is_complex field in _)).
  destruct (field_is_complex field) as [c a]. simpl in Hc. subst c.
  simpl. unfold bind, ret. destruct raw; try reflexivity; discriminate.
Qed.

Lemma probe_decode_error :
  is_dict raw = false ->
  complex_parser m (name field) raw = ParseValueError ->
  probe m field key st =
  match field_is_complex field with
  | (true, false) => (Err (parse_error key), cached m st)
  | _ => (Ok (OScalar raw), cached m st)
  end.
Proof.
  intros Hd Hp. unfold probe.
  rewrite (probe_enter (fun value =>
    let '(is_cplx, is_parse_failure_allowed) := field_is_complex field in _)).
  destruct (field_is_complex field) as [[] []];
    simpl; rewrite ?Hd, ?Hp; simpl; unfold bind, ret, raise;
    try reflexivity; destruct raw; try reflexivity; discriminate.
Qed.

Lemma probe_other_error :
  is_dict raw = false ->
  fst (field_is_complex field) = true ->
  complex_parser m (name field) raw = ParseOtherError ->
  probe m field key st = (Err ParserError, cached m st).
Proof.
  intros Hd Hc Hp. unfold probe.
  rewrite (probe_enter (fun value =>
    let '(is_cplx, is_parse_failure_allowed) := field_is_complex field in _)).
  destruct (field_is_complex field) as [c a]. simpl in Hc. subst c.
  simpl. rewrite Hd, Hp. reflexivity.
Qed.
End Found.
End Loop.


(** ** Search names and the key index *)

Lemma find_eqb_self (k : string) (keys : list string) :
  k ∈ keys -> find (fun k' => String.eqb k' k) keys = Some k.
Proof.
  induction keys as [|k0 keys IH]; simpl; intros H.
  - now apply elem_of_nil in H.
  - destruct (String.eqb_spec k0 k) as [->|Hne]; [reflexivity|].
    apply IH. apply elem_of_cons in H as [->|H]; [contradiction | exact H].
Qed.

Lemma keymap_case_sensitive_get (keys : list string) (k : string) :
  k ∈ keys -> dict_get k (build_keymap true keys) = Some k.
Proof. intros H. rewrite build_keymap_get. now apply find_eqb_self. Qed.



Lemma skip_step m field key rest st :
  probe m field key st = (Ok OSkip, cached m st) ->
  get_field_value m (key :: rest) field st =
  get_field_value m rest field (cached m st).
Proof. intros H. unfold get_field_value. now rewrite loop_cons, H. Qed.

Lemma get_field_value_plain m field key source_key raw rest st :
  cache_ok m st ->
  dict_get key (build_keymap (case_sensitive m) (dict_keys (source m)))
    = Some source_key ->
  source_key <> EmptyString ->
  dict_get source_key (source m) = Some raw ->
  raw <> HNone -> is_dict raw = false ->
  fst (field_is_complex field) = false ->
  get_field_value m (key :: rest) field st = (Ok (RVal raw), cached m st).
Proof.
  intros Hc Hk Hsk Hraw Hn Hd Hf.
  unfold get_field_value. rewrite loop_cons.
  now rewrite (probe_plain m field key source_key raw st Hc Hk Hsk Hraw Hn Hd Hf).
Qed.

(** C1, as amended.  The search names are tried in the order of the list.
    When the names before [key] yield no value that is not a dictionary, and
    [key] yields such a value, that value is the response, whatever names
    follow.  For a field that is not complex the value is the one the source
    holds under the key the index gives for the name as written.  In the
    case-sensitive mode, for such a field, the names ["A"; "B"] over a
    source with both keys give the value under "A", wherever the keys stand
    in the source. *)
Theorem first_scalar_wins :
  (forall m field pre key post st r st1 v st2,
      get_field_value m pre field st = (Ok r, st1) ->
      is_scalar r = false ->
      get_field_value m [key] field st1 = (Ok (RVal v), st2) ->
      get_field_value m (pre ++ key :: post) field st = (Ok (RVal v), st2))
  /\ (forall m field key source_key raw rest st,
      cache_ok m st ->
      dict_get key (build_keymap (case_sensitive m) (dict_keys (source m)))
        = Some source_key ->
      source_key <> EmptyString ->
      dict_get source_key (source m) = Some raw ->
      raw <> HNone -> is_dict raw = false ->
      fst (field_is_complex field) = false ->
      get_field_value m (key :: rest) field st = (Ok (RVal raw), cached m st))
  /\ (forall m field a b st,
      cache_ok m st ->
      case_sensitive m = true ->
      fst (field_is_complex field) = false ->
      dict_get "A" (source m) = Some a ->
      dict_get "B" (source m) = Some b ->
      a <> HNone -> is_dict a = false ->
      get_field_value m ["A"; "B"] field st = (Ok (RVal a), cached m st)).
Proof.
  split; [|split; [apply get_field_value_plain|]].
  - intros m field pre key post st r st1 v st2 Hpre Hr Hkey.
    unfold get_field_value in *. rewrite loop_app, Hpre.
    destruct r as [| d | v0]; try discriminate;
      eapply loop_scalar_first, Hkey.
  - intros m field a b st Hc Hcs Hf Ha Hb Hn Hd.
    apply (get_field_value_plain m field "A" "A" a ["B"] st); auto.
    rewrite Hcs. apply keymap_case_sensitive_get.
    eapply dict_get_Some_keys, Ha.
Qed.




(** ** Merging *)

Lemma dict_keys_rev {V} (d : dict V) : dict_keys (rev d) = rev (dict_keys d).
Proof. unfold dict_keys. now rewrite map_rev. Qed.

Lemma dict_get_update_absent {V} (k : string) (a d : dict V) :
  k ∉ dict_keys d -> dict_get k (dict_update a d) = dict_get k a.
Proof.
  intros H. rewrite dict_get_update.
  assert (E : dict_get k (rev d) = None).
  { apply dict_get_None. rewrite dict_keys_rev.
    intros Hin. apply H. apply list_elem_of_In.
    apply list_elem_of_In in Hin. now apply in_rev. }
  now rewrite E.
Qed.

Lemma dict_get_update_present {V} (k : string) (v : V) (a d : dict V) :
  NoDup (dict_keys d) -> dict_get k d = Some v ->
  dict_get k (dict_update a d) = Some v.
Proof.
  intros Hn H. rewrite dict_get_update, dict_get_rev by exact Hn. now rewrite H.
Qed.

Lemma dict_get_updates_absent {V} (k : string) (later : list (dict V)) :
  Forall (fun d => k ∉ dict_keys d) later ->
  forall a, dict_get k (fold_left dict_update later a) = dict_get k a.
Proof.
  induction 1 as [|d later Hd _ IH]; intros a; simpl; [reflexivity|].
  rewrite IH. now apply dict_get_update_absent.
Qed.

(** C5.  When every search name is skipped or yields a dictionary, the
    response is made of these dictionaries, each one updating the ones before
    it, from left to right: a key has the value of the last fragment that
    holds it.  The merged dictionary is returned when it is not empty, and
    the "no value" marker when it is. *)
Theorem fragments_are_merged m field names st frs st' :
  fragments m field names st = Some (frs, st') ->
  let merged := fold_left dict_update frs [] in
  get_field_value m names field st =
    (Ok (if dict_is_empty merged then REmpty else RDict merged), st')
  /\ (forall earlier d later k v,
        frs = earlier ++ d :: later ->
        NoDup (dict_keys d) ->
        dict_get k d = Some v ->
        Forall (fun d' => k ∉ dict_keys d') later ->
        dict_get k merged = Some v).
Proof.
  intros H merged. split.
  - unfold get_field_value. now rewrite (loop_fragments m field names [] st frs st').
  - intros earlier d later k v -> Hn Hk Hl. subst merged.
    rewrite fold_left_app. simpl.
    rewrite dict_get_updates_absent by exact Hl.
    now apply dict_get_update_present.
Qed.


(** ** Invariants of the state *)

Lemma pyval_dict_ind (P : pyval -> Prop) :
  P PNone -> (forall s, P (PStr s)) -> (forall z, P (PInt z)) ->
  (forall l, P (PList l)) ->
  (forall d, Forall (fun kv => P (snd kv)) d -> P (PDict d)) ->
  forall v, P v.
Proof.
  intros HN HS HI HL HD. fix IH 1.
  intros [| s | z | l | d]; [exact HN | apply HS | apply HI | apply HL |].
  apply HD. induction d as [|[k x] d IHd]; constructor; [apply IH | exact IHd].
Qed.

Lemma ModelField_nested_ind (P : ModelField -> Prop) :
  (forall n a e ee c u sf tf,
      match tf with Some fs => Forall P fs | None => True end ->
      P (mkField n a e ee c u sf tf)) ->
  forall f, P f.
Proof.
  intros H. fix IH 1. intros [n a e ee c u sf tf]. apply H.
  destruct tf as [fs|]; [|exact I].
  induction fs as [|f fs IHfs]; constructor; [apply IH | exact IHfs].
Qed.

Section Preserves.
Variable m : SourceMapper.

Lemma preserves_ret {A} (a : A) : preserves m (ret a).
Proof. intros st H. simpl. auto. Qed.

Lemma preserves_raise {A} e : preserves m (@raise A e).
Proof. intros st H. simpl. auto. Qed.

Lemma preserves_bind {A B} (c : M A) (k : A -> M B) :
  preserves m c -> (forall a, preserves m (k a)) -> preserves m (bind c k).
Proof.
  intros Hc Hk st H. unfold bind. specialize (Hc st H).
  destruct (c st) as [[a|e] st1]; simpl in *; [|exact Hc].
  destruct Hc as [Hc Hl]. specialize (Hk a st1 Hc). split; [apply Hk | lia].
Qed.

Lemma preserves_read l : preserves m (read l).
Proof. intros st H. simpl. auto. Qed.

Lemma preserves_write l d : preserves m (write l d).
Proof.
  intros st H. simpl. split; [exact H|]. now rewrite length_insert.
Qed.

Lemma preserves_alloc d : preserves m (alloc d).
Proof.
  intros st H. simpl. split; [exact H|]. rewrite length_app. lia.
Qed.

Lemma preserves_keymap : preserves m (keymap m).
Proof.
  intros st H. rewrite (keymap_run m st H). simpl.
  split; [apply cache_ok_cached | lia].
Qed.

Lemma preserves_map_m {A B} (body : A -> M B) xs :
  Forall (fun x => preserves m (body x)) xs -> preserves m (map_m body xs).
Proof.
  induction 1 as [|x xs Hx _ IH]; simpl; [apply preserves_ret|].
  apply preserves_bind; [exact Hx|]. intros y.
  apply preserves_bind; [exact IH|]. intros ys. apply preserves_ret.
Qed.

Lemma preserves_for_each {A} (body : A -> M unit) xs :
  Forall (fun x => preserves m (body x)) xs -> preserves m (for_each body xs).
Proof.
  induction 1 as [|x xs Hx _ IH]; simpl; [apply preserves_ret|].
  apply preserves_bind; [exact Hx | intros _; exact IH].
Qed.

Lemma preserves_alloc_tree v : preserves m (alloc_tree v).
Proof.
  induction v as [| s | z | l | d IH] using pyval_dict_ind;
    try apply preserves_ret.
  cbn [alloc_tree]. apply preserves_bind.
  - apply preserves_map_m. eapply Forall_impl; [exact IH|].
    intros [k x] Hx. simpl in Hx.
    apply preserves_bind; [exact Hx | intros; apply preserves_ret].
  - intros entries. apply preserves_bind; [apply preserves_alloc|].
    intros; apply preserves_ret.
Qed.

Ltac pres_step :=
  first
    [ apply preserves_ret | apply preserves_raise | apply preserves_read
    | apply preserves_write | apply preserves_alloc | apply preserves_keymap
    | apply preserves_alloc_tree
    | apply preserves_bind; [|intros ?]
    | match goal with
      | |- preserves _ (match ?x with _ => _ end) => destruct x
      end ].

Ltac pres := repeat pres_step.

Lemma preserves_loop field names : forall acc,
  preserves m (get_field_value_loop m field names acc).
Proof.
  induction names as [|key names IH]; intros acc;
    cbn [get_field_value_loop]; pres; apply IH.
Qed.

Lemma preserves_get_field_value names field :
  preserves m (get_field_value m names field).
Proof. apply preserves_loop. Qed.

Lemma preserves_setdefault target key : preserves m (py_setdefault target key).
Proof. unfold py_setdefault. pres. Qed.

Lemma preserves_store field result r : preserves m (store_response field result r).
Proof.
  unfold store_response, py_update, py_setitem. destruct r; pres.
  apply preserves_setdefault.
Qed.

Lemma preserves_update field : forall prefix result,
  preserves m (update_result_for_field m field prefix result).
Proof.
  induction field as [n a e ee c u sf tf IH] using ModelField_nested_ind.
  intros prefix result. cbn [update_result_for_field type_fields].
  apply preserves_bind; [apply preserves_get_field_value | intros r].
  apply preserves_bind; [apply preserves_store | intros _].
  destruct tf as [fs|]; [|apply preserves_ret].
  destruct (delimiter_set m) as [delimiter|]; [|apply preserves_ret].
  apply preserves_for_each, Forall_forall. intros nm _.
  apply preserves_for_each. eapply Forall_impl; [exact IH|].
  intros f Hf. simpl.
  apply preserves_bind; [apply preserves_setdefault | intros sub; apply Hf].
Qed.

Lemma preserves_fields result fields :
  preserves m
    (for_each (fun field => update_result_for_field m field EmptyString result) fields).
Proof.
  apply preserves_for_each, Forall_forall. intros f _. apply preserves_update.
Qed.

Lemma preserves_call fields : preserves m (call m fields).
Proof.
  unfold call. apply preserves_bind; [apply preserves_alloc | intros l].
  apply preserves_bind; [apply preserves_fields | intros _; apply preserves_ret].
Qed.
End Preserves.


(** ** Resolving the fields *)

Lemma update_result_for_field_eq m field prefix result :
  update_result_for_field m field prefix result =
  (let names := field_names m field prefix in
   response <- get_field_value m names field ;;
   store_response field result response ;;;
   match type_fields field, delimiter_set m with
   | Some fs, Some delimiter =>
       for_each (fun name =>
         for_each (fun f =>
           sub <- py_setdefault result (alias field) ;;
           update_result_for_field m f (name ++ delimiter)%string sub) fs) names
   | _, _ => ret tt
   end).
Proof. destruct field; reflexivity. Qed.

Lemma for_each_app {A} (body : A -> M unit) xs ys st :
  for_each body (xs ++ ys) st =
  match for_each body xs st with
  | (Ok _, st') => for_each body ys st'
  | (Err e, st') => (Err e, st')
  end.
Proof.
  revert st. induction xs as [|x xs IH]; intros st; simpl; [reflexivity|].
  unfold bind. destruct (body x st) as [[[]|e] st1]; [apply IH | reflexivity].
Qed.

(** A call that returns has gone through the fields and returns the
    dictionary it made at the start. *)
Lemma call_returns m fields st res st' :
  call m fields st = (Ok res, st') ->
  res = HRef (length (heap st)) /\
  for_each (fun field => update_result_for_field m field EmptyString (HRef (length (heap st))))
    fields (snd (alloc [] st)) = (Ok tt, st').
Proof.
  unfold call, bind, ret. cbn [alloc snd].
  destruct (for_each _ fields _) as [[[]|e] st1]; [|discriminate].
  intros [= <- <-]. split; reflexivity.
Qed.

Lemma call_app m before after st res st1 :
  call m before st = (Ok res, st1) ->
  call m (before ++ after) st =
  match for_each (fun field => update_result_for_field m field EmptyString res) after st1 with
  | (Ok _, st2) => (Ok res, st2)
  | (Err e, st2) => (Err e, st2)
  end.
Proof.
  intros H. apply call_returns in H as [-> H].
  unfold call, bind, ret. cbn [alloc snd] in H |- *. rewrite for_each_app, H.
  now destruct (for_each _ after st1) as [[[]|e] st2].
Qed.

(** The result of a call is a dictionary of the heap. *)
Lemma call_result_allocated m fields st res st' :
  cache_ok m st ->
  call m fields st = (Ok res, st') ->
  cache_ok m st' /\ res = HRef (length (heap st)) /\
  length (heap st) < length (heap st').
Proof.
  intros Hc H. destruct (call_returns m fields st res st' H) as [-> Hf].
  assert (Hc0 : cache_ok m (snd (alloc [] st))) by exact Hc.
  pose proof (preserves_fields m (HRef (length (heap st))) fields _ Hc0) as [H1 H2].
  rewrite Hf in H1, H2. cbn [snd alloc heap] in H1, H2.
  rewrite length_app in H2. simpl in H2. repeat split; [exact H1 | lia].
Qed.

Lemma heap_get_insert_eq h l d :
  l < length h -> heap_get (<[l := d]> h) l = d.
Proof. intros H. unfold heap_get. now rewrite list_lookup_insert_eq. Qed.

Lemma heap_get_insert_ne h l l' d :
  l <> l' -> heap_get (<[l := d]> h) l' = heap_get h l'.
Proof. intros H. unfold heap_get. now rewrite list_lookup_insert_ne. Qed.

Section DecodeFailure.
Variables (m : SourceMapper) (field : ModelField).
Variables (pre : list string) (key : string) (rest : list string).
Variables (source_key : string) (raw : hval).
Hypothesis Hkey :
  dict_get key (build_keymap (case_sensitive m) (dict_keys (source m)))
    = Some source_key.
Hypothesis Hsk : source_key <> EmptyString.
Hypothesis Hraw : dict_get source_key (source m) = Some raw.
Hypothesis Hnot_none : raw <> HNone.
Hypothesis Hnot_dict : is_dict raw = false.

Lemma reaches_key st r st1 :
  cache_ok m st ->
  get_field_value m pre field st = (Ok r, st1) ->
  is_scalar r = false ->
  cache_ok m st1 /\
  forall out,
    (forall acc, get_field_value_loop m field (key :: rest) acc st1 = out) ->
    get_field_value m (pre ++ key :: rest) field st = out.
Proof.
  intros Hc Hpre Hr.
  assert (Hc1 : cache_ok m st1).
  { pose proof (preserves_get_field_value m pre field st Hc) as [H _].
    now rewrite Hpre in H. }
  split; [exact Hc1|]. intros out E.
  unfold get_field_value in *. rewrite loop_app, Hpre.
  destruct r; try discriminate; apply E.
Qed.

Lemma decode_failure_response st r st1 :
  complex_parser m (name field) raw = ParseValueError ->
  cache_ok m st ->
  get_field_value m pre field st = (Ok r, st1) ->
  is_scalar r = false ->
  get_field_value m (pre ++ key :: rest) field st =
  match field_is_complex field with
  | (true, false) => (Err (parse_error key), cached m st1)
  | _ => (Ok (RVal raw), cached m st1)
  end.
Proof.
  intros Hfails Hc Hpre Hr.
  destruct (reaches_key st r st1 Hc Hpre Hr) as [Hc1 E]. apply E.
  intros acc. rewrite loop_cons.
  rewrite (probe_decode_error m field key source_key raw st1
             Hc1 Hkey Hsk Hraw Hnot_none Hnot_dict Hfails).
  now destruct (field_is_complex field) as [[] []].
Qed.

Lemma other_failure_response st r st1 :
  complex_parser m (name field) raw = ParseOtherError ->
  fst (field_is_complex field) = true ->
  cache_ok m st ->
  get_field_value m pre field st = (Ok r, st1) ->
  is_scalar r = false ->
  get_field_value m (pre ++ key :: rest) field st
  = (Err ParserError, cached m st1).
Proof.
  intros Hfails Hcx Hc Hpre Hr.
  destruct (reaches_key st r st1 Hc Hpre Hr) as [Hc1 E]. apply E.
  intros acc. rewrite loop_cons.
  now rewrite (probe_other_error m field key source_key raw st1
                 Hc1 Hkey Hsk Hraw Hnot_none Hnot_dict Hcx Hfails).
Qed.

Lemma decode_failure_aborts before after st0 res st1 r st2 :
  complex_parser m (name field) raw = ParseValueError ->
  cache_ok m st0 ->
  call m before st0 = (Ok res, st1) ->
  field_names m field EmptyString = pre ++ key :: rest ->
  get_field_value m pre field st1 = (Ok r, st2) ->
  is_scalar r = false ->
  field_is_complex field = (true, false) ->
  call m (before ++ field :: after) st0 = (Err (parse_error key), cached m st2).
Proof.
  intros Hfails Hc Hcall Hnames Hpre Hr Hcx.
  assert (Hc1 : cache_ok m st1).
  { pose proof (preserves_call m before st0 Hc) as [H _].
    now rewrite Hcall in H. }
  rewrite (call_app m before (field :: after) st0 res st1 Hcall).
  cbn [for_each]. unfold bind at 1.
  rewrite update_result_for_field_eq. cbv zeta. rewrite Hnames.
  unfold bind at 1.
  rewrite (decode_failure_response st1 r st2 Hfails Hc1 Hpre Hr), Hcx. reflexivity.
Qed.

Lemma decode_failure_tolerated before st0 res st1 r st2 :
  complex_parser m (name field) raw = ParseValueError ->
  cache_ok m st0 ->
  call m before st0 = (Ok res, st1) ->
  field_names m field EmptyString = pre ++ key :: rest ->
  get_field_value m pre field st1 = (Ok r, st2) ->
  is_scalar r = false ->
  field_is_complex field = (true, true) ->
  type_fields field = None ->
  exists st3 l,
    call m (before ++ [field]) st0 = (Ok res, st3) /\ res = HRef l /\
    dict_get (alias field) (heap_get (heap st3) l) = Some raw.
Proof.
  intros Hfails Hc Hcall Hnames Hpre Hr Hcx Hty.
  destruct (call_result_allocated m before st0 res st1 Hc Hcall)
    as (Hc1 & -> & Hl1).
  pose proof (preserves_get_field_value m pre field st1 Hc1) as [_ Hl2].
  rewrite Hpre in Hl2. simpl in Hl2.
  rewrite (call_app m before [field] st0 _ st1 Hcall).
  cbn [for_each]. unfold bind at 1.
  rewrite update_result_for_field_eq. cbv zeta. rewrite Hnames, Hty.
  unfold bind at 1.
  rewrite (decode_failure_response st1 r st2 Hfails Hc1 Hpre Hr), Hcx.
  cbn. eexists _, _. split; [reflexivity|]. split; [reflexivity|].
  cbn. rewrite heap_get_insert_eq by lia. apply dict_get_set_eq.
Qed.
End DecodeFailure.

(** An exception raised in the resolution of a field, at any depth of the
    nested models, leaves [update_result_for_field] and the call. *)
Lemma raises_in_update m e field prefix result st st' :
  raises_in m e field prefix result st st' ->
  update_result_for_field m field prefix result st = (Err e, st').
Proof.
  induction 1 as [field prefix result st st' Hg
                 | field prefix result st fs delimiter nb name na fb f fa
                     response st1 st2 st3 st4 sub st5 st'
                     Hfs Hdelim Hnames Hsplit Hg Hstore Hnb Hfb Hsd _ IH].
  - rewrite update_result_for_field_eq. cbv zeta.
    unfold bind at 1. now rewrite Hg.
  - rewrite update_result_for_field_eq. cbv zeta.
    unfold bind at 1. rewrite Hg.
    unfold bind at 1. rewrite Hstore.
    rewrite Hfs, Hdelim, Hnames.
    rewrite for_each_app, Hnb. cbn [for_each]. unfold bind at 1.
    rewrite Hsplit, for_each_app, Hfb. cbn [for_each]. unfold bind at 1.
    unfold bind at 1. rewrite Hsd, IH. reflexivity.
Qed.

Lemma raises_in_call m e before field after st0 res st1 st2 :
  call m before st0 = (Ok res, st1) ->
  raises_in m e field EmptyString res st1 st2 ->
  call m (before ++ field :: after) st0 = (Err e, st2).
Proof.
  intros Hcall H.
  rewrite (call_app m before (field :: after) st0 res st1 Hcall).
  cbn [for_each]. unfold bind at 1.
  now rewrite (raises_in_update m e field EmptyString res st1 st2 H).
Qed.

(** C3, as amended.  Take a search name of a field that the scan reaches,
    whose value in the source is not a dictionary.  When the decoder fails
    on the value with a [ValueError], the response is the configuration error
    naming the search name when the field is itself complex, and the
    undecoded value otherwise: an exception is raised exactly in the first
    case; when the field is not itself complex and is a union with a complex
    branch (its type is then not a model), the call returns and the result
    holds the undecoded value under the alias of the field.  When the decoder
    fails with another exception, that exception is raised, tolerant union or
    not.  An exception raised in the resolution of a field, at the top or
    in a model inside a model at any depth, is raised by
    [update_result_for_field] and by the call, whatever fields come before
    and after: no result is returned. *)
Theorem decode_failure_policy m field pre key rest source_key raw :
  dict_get key (build_keymap (case_sensitive m) (dict_keys (source m)))
    = Some source_key ->
  source_key <> EmptyString ->
  dict_get source_key (source m) = Some raw ->
  raw <> HNone ->
  is_dict raw = false ->
  (complex_parser m (name field) raw = ParseValueError ->
   forall st r st1,
      cache_ok m st ->
      get_field_value m pre field st = (Ok r, st1) ->
      is_scalar r = false ->
      get_field_value m (pre ++ key :: rest) field st =
        match field_is_complex field with
        | (true, false) => (Err (parse_error key), cached m st1)
        | _ => (Ok (RVal raw), cached m st1)
        end
      /\ ((exists e st', get_field_value m (pre ++ key :: rest) field st = (Err e, st'))
          <-> field_is_complex field = (true, false)))
  /\ (complex_parser m (name field) raw = ParseOtherError ->
      fst (field_is_complex field) = true ->
      forall st r st1,
        cache_ok m st ->
        get_field_value m pre field st = (Ok r, st1) ->
        is_scalar r = false ->
        get_field_value m (pre ++ key :: rest) field st
        = (Err ParserError, cached m st1))
  /\ (complex_parser m (name field) raw = ParseValueError ->
      field_is_complex field = (true, false) ->
      forall prefix result st r st1,
        cache_ok m st ->
        field_names m field prefix = pre ++ key :: rest ->
        get_field_value m pre field st = (Ok r, st1) ->
        is_scalar r = false ->
        raises_in m (parse_error key) field prefix result st (cached m st1))
  /\ (forall e f prefix result st st',
      raises_in m e f prefix result st st' ->
      update_result_for_field m f prefix result st = (Err e, st'))
  /\ (forall e before f after st0 res st1 st2,
      call m before st0 = (Ok res, st1) ->
      raises_in m e f EmptyString res st1 st2 ->
      call m (before ++ f :: after) st0 = (Err e, st2))
  /\ (complex_parser m (name field) raw = ParseValueError ->
      forall before after st0 res st1 r st2,
      cache_ok m st0 ->
      call m before st0 = (Ok res, st1) ->
      field_names m field EmptyString = pre ++ key :: rest ->
      get_field_value m pre field st1 = (Ok r, st2) ->
      is_scalar r = false ->
      field_is_complex field = (true, false) ->
      call m (before ++ field :: after) st0 = (Err (parse_error key), cached m st2))
  /\ (complex_parser m (name field) raw = ParseValueError ->
      forall before st0 res st1 r st2,
      cache_ok m st0 ->
      call m before st0 = (Ok res, st1) ->
      field_names m field EmptyString = pre ++ key :: rest ->
      get_field_value m pre field st1 = (Ok r, st2) ->
      is_scalar r = false ->
      field_is_complex field = (true, true) ->
      type_fields field = None ->
      exists st3 l,
        call m (before ++ [field]) st0 = (Ok res, st3) /\ res = HRef l /\
        dict_get (alias field) (heap_get (heap st3) l) = Some raw).
Proof.
  intros Hkey Hsk Hraw Hn Hd.
  split; [|split; [|split; [|split; [|split; [|split]]]]].
  - intros Hf st r st1 Hc Hpre Hr.
    pose proof (decode_failure_response m field pre key rest source_key raw
                  Hkey Hsk Hraw Hn Hd st r st1 Hf Hc Hpre Hr) as E.
    split; [exact E|]. rewrite E.
    destruct (field_is_complex field) as [[] []]; split;
      try reflexivity; try discriminate;
      try (intros (e & st' & [=])); eauto.
  - intros Hf Hcx st r st1 Hc Hpre Hr.
    exact (other_failure_response m field pre key rest source_key raw
             Hkey Hsk Hraw Hn Hd st r st1 Hf Hcx Hc Hpre Hr).
  - intros Hf Hcx prefix result st r st1 Hc Hnames Hpre Hr.
    apply raises_here. rewrite Hnames.
    rewrite (decode_failure_response m field pre key rest source_key raw
               Hkey Hsk Hraw Hn Hd st r st1 Hf Hc Hpre Hr), Hcx. reflexivity.
  - intros e f prefix result st st'. apply raises_in_update.
  - intros e before f after st0 res st1 st2. apply raises_in_call.
  - intros Hf before after st0 res st1 r st2. intros.
    eapply decode_failure_aborts; eauto.
  - intros Hf before st0 res st1 r st2. intros.
    eapply decode_failure_tolerated; eauto.
Qed.

(** ** Nested models *)

Lemma heap_get_alloc h d l :
  l < length h -> heap_get (h ++ [d]) l = heap_get h l.
Proof. intros H. unfold heap_get. now rewrite lookup_app_l. Qed.

Lemma heap_get_alloc_new h d : heap_get (h ++ [d]) (length h) = d.
Proof.
  unfold heap_get. now rewrite list_lookup_middle.
Qed.

(** [setdefault] on a dictionary without the key stores a new empty
    dictionary under it and returns it. *)
Lemma py_setdefault_absent l key st :
  l < length (heap st) ->
  dict_get key (heap_get (heap st) l) = None ->
  py_setdefault (HRef l) key st =
  (Ok (HRef (length (heap st))),
   mkState (<[l := dict_set key (HRef (length (heap st))) (heap_get (heap st) l)]>
              (heap st ++ [[]]))
           (keymap_cache st)).
Proof.
  intros Hl Hk. unfold py_setdefault, bind, alloc, read, write, ret.
  cbn [heap keymap_cache]. rewrite heap_get_alloc by exact Hl. now rewrite Hk.
Qed.

(** [setdefault] on a dictionary with the key returns what it holds. *)
Lemma py_setdefault_present l key v st :
  l < length (heap st) ->
  dict_get key (heap_get (heap st) l) = Some v ->
  py_setdefault (HRef l) key st =
  (Ok v, mkState (heap st ++ [[]]) (keymap_cache st)).
Proof.
  intros Hl Hk. unfold py_setdefault, bind, alloc, read, write, ret.
  cbn [heap keymap_cache]. rewrite heap_get_alloc by exact Hl. now rewrite Hk.
Qed.


(** ** The empty key *)

Section EmptyKey.
Variables (m : SourceMapper) (src : dict hval).
Hypothesis Hkeys : dict_keys src = dict_keys (source m).
Hypothesis Hvalues :
  forall k, k <> EmptyString -> dict_get k src = dict_get k (source m).

Lemma probe_with_source field key st :
  probe (with_source m src) field key st = probe m field key st.
Proof.
  unfold probe, bind, keymap. cbn [with_source case_sensitive source
    complex_parser]. rewrite Hkeys.
  destruct (keymap_cache st) as [kb|];
    match goal with
    | |- context [dict_get key ?kb] => destruct (dict_get key kb) as [sk|]
    end; try reflexivity;
    (destruct (String.eqb_spec sk EmptyString); [reflexivity|];
     rewrite Hvalues by assumption; reflexivity).
Qed.

Lemma loop_with_source field names : forall acc st,
  get_field_value_loop (with_source m src) field names acc st =
  get_field_value_loop m field names acc st.
Proof.
  induction names as [|key names IH]; intros acc st; [reflexivity|].
  rewrite !loop_cons, probe_with_source.
  destruct (probe m field key st) as [[[| d | v]|e] st1];
    try reflexivity; apply IH.
Qed.

Lemma for_each_ext {A} (f g : A -> M unit) xs :
  Forall (fun x => forall st, f x st = g x st) xs ->
  forall st, for_each f xs st = for_each g xs st.
Proof.
  induction 1 as [|x xs Hx _ IH]; intros st; simpl; [reflexivity|].
  unfold bind. rewrite Hx. destruct (g x st) as [[[]|e] st1]; [apply IH | reflexivity].
Qed.

Lemma bind_ext {A B} (c1 c2 : M A) (k1 k2 : A -> M B) :
  (forall st, c1 st = c2 st) ->
  (forall a st, k1 a st = k2 a st) ->
  forall st, bind c1 k1 st = bind c2 k2 st.
Proof.
  intros Hc Hk st. unfold bind. rewrite Hc.
  destruct (c2 st) as [[a|e] st1]; [apply Hk | reflexivity].
Qed.

Lemma update_with_source field : forall prefix result st,
  update_result_for_field (with_source m src) field prefix result st =
  update_result_for_field m field prefix result st.
Proof.
  induction field as [n a e ee c u sf tf IH] using ModelField_nested_ind.
  intros prefix result st. rewrite !update_result_for_field_eq. cbv zeta.
  change (field_names (with_source m src)) with (field_names m).
  change (delimiter_set (with_source m src)) with (delimiter_set m).
  apply bind_ext; [intros; apply loop_with_source | intros r st1].
  apply bind_ext; [reflexivity | intros _ st2].
  cbn [type_fields alias]. destruct tf as [fs|]; [|reflexivity].
  destruct (delimiter_set m) as [delimiter|]; [|reflexivity].
  apply for_each_ext, Forall_forall. intros nm _ st3.
  apply for_each_ext. eapply Forall_impl; [exact IH|].
  intros f Hf st4. simpl.
  apply bind_ext; [reflexivity | intros sub st5; apply Hf].
Qed.

Lemma call_with_source fields st :
  call (with_source m src) fields st = call m fields st.
Proof.
  unfold call. apply bind_ext; [reflexivity | intros l st1].
  apply bind_ext; [|reflexivity].
  apply for_each_ext, Forall_forall. intros f _ st2. apply update_with_source.
Qed.
End EmptyKey.

(** C10.  A search name whose entry in the key index is the empty key is
    passed over like a name that has no entry: the response is the one of
    the remaining names, and a field with that name alone leaves the result
    as it is.  The value that the source holds under the empty key is not
    read: a source with the same keys and the same values under the other
    keys gives the same result, for all fields. *)
Theorem falsy_source_key_is_skipped m field key rest st :
  cache_ok m st ->
  dict_get key (build_keymap (case_sensitive m) (dict_keys (source m))) = Some EmptyString ->
  get_field_value m (key :: rest) field st =
    get_field_value m rest field (cached m st)
  /\ (forall absent,
        dict_get absent (build_keymap (case_sensitive m) (dict_keys (source m)))
          = None ->
        get_field_value m (absent :: rest) field st =
        get_field_value m (key :: rest) field st)
  /\ (forall prefix result,
        field_names m field prefix = [key] ->
        type_fields field = None ->
        update_result_for_field m field prefix result st = (Ok tt, cached m st))
  /\ (forall src fields st0,
        dict_keys src = dict_keys (source m) ->
        (forall k, k <> EmptyString -> dict_get k src = dict_get k (source m)) ->
        call (with_source m src) fields st0 = call m fields st0).
Proof.
  intros Hc Hk.
  assert (E : get_field_value m (key :: rest) field st =
              get_field_value m rest field (cached m st))
    by (apply skip_step, probe_falsy_key; assumption).
  split; [exact E|]. split; [|split].
  - intros absent Ha. rewrite E. apply skip_step, probe_absent; assumption.
  - intros prefix result Hnames Hty.
    rewrite update_result_for_field_eq. cbv zeta. rewrite Hnames, Hty.
    unfold bind.
    rewrite (skip_step m _ key [] st)
      by (apply probe_falsy_key; assumption).
    reflexivity.
  - intros src fields st0 Hkeys Hvalues. now apply call_with_source.
Qed.


(** ** Source providers *)

Lemma dict_update_nil_id {V} (d : dict V) :
  NoDup (dict_keys d) -> dict_update [] d = d.
Proof.
  induction d as [|[k v] d IH] using rev_ind; intros H; [reflexivity|].
  unfold dict_keys in H. rewrite map_app in H. apply NoDup_app in H as (Hd & Hk & _).
  rewrite dict_update_app, IH by exact Hd. simpl.
  assert (Hnin : k ∉ dict_keys d).
  { intros Hin. apply (Hk k Hin). simpl. apply elem_of_cons. now left. }
  clear -Hnin. induction d as [|[k' v'] d IH]; simpl; [reflexivity|].
  apply not_elem_of_cons in Hnin as [Hne Hnin].
  destruct (String.eqb_spec k k'); [contradiction|]. now rewrite IH.
Qed.

Section Providers.
Variable host : Host.
Variable values : string -> string -> dict pyval.
Hypothesis Hinstalled : dotenv_values host = Some values.

Lemma load_dotenv_files_NoDup encoding paths acc :
  NoDup (dict_keys acc) ->
  NoDup (dict_keys (load_dotenv_files host values encoding paths acc)).
Proof.
  unfold load_dotenv_files. revert acc.
  induction paths as [|p paths IH]; intros acc H; simpl; [exact H|].
  apply IH. destruct (is_file host (expanduser host p)); simpl;
    [apply NoDup_dict_update, H | exact H].
Qed.

Lemma load_dotenv_files_last encoding paths p acc :
  load_dotenv_files host values encoding (paths ++ [p]) acc =
  if is_file host (expanduser host p)
  then dict_update (load_dotenv_files host values encoding paths acc)
         (values (expanduser host p) encoding)
  else load_dotenv_files host values encoding paths acc.
Proof.
  unfold load_dotenv_files. rewrite fold_left_app. simpl.
  now destruct (is_file host (expanduser host p)).
Qed.

Lemma load_dotenv_files_skip encoding before p after acc :
  is_file host (expanduser host p) = false ->
  load_dotenv_files host values encoding (before ++ p :: after) acc =
  load_dotenv_files host values encoding (before ++ after) acc.
Proof.
  intros H. unfold load_dotenv_files. rewrite !fold_left_app. simpl.
  now rewrite H.
Qed.

Lemma env_source_provider_paths ps enc :
  env_source_provider host (Some (DotenvPaths ps)) enc =
  Ok (dict_update
        (load_dotenv_files host values (effective_encoding enc) ps [])
        (environ host)).
Proof.
  unfold env_source_provider, dotenv_source_provider, paths_truthy.
  rewrite Hinstalled.
  destruct ps as [|p ps]; [reflexivity|]. cbn [length Nat.eqb negb].
  rewrite !dict_update_nil_id
    by (repeat first [ apply load_dotenv_files_NoDup | apply NoDup_dict_update
                     | apply NoDup_nil_2 ]).
  destruct enc as [e|]; reflexivity.
Qed.

Lemma env_source_provider_path p enc :
  p <> EmptyString ->
  env_source_provider host (Some (DotenvPath p)) enc =
  Ok (dict_update
        (load_dotenv_files host values (effective_encoding enc) [p] [])
        (environ host)).
Proof.
  intros Hp. apply String.eqb_neq in Hp.
  unfold env_source_provider, dotenv_source_provider, paths_truthy.
  rewrite Hinstalled, Hp. cbn [negb].
  rewrite !dict_update_nil_id
    by (repeat first [ apply load_dotenv_files_NoDup | apply NoDup_dict_update
                     | apply NoDup_nil_2 ]).
  destruct enc as [e|]; reflexivity.
Qed.
End Providers.

(** C8, as amended.  With python-dotenv installed, the mapping of the
    environment provider is the content of the dotenv files updated with the
    process environment: a key of the process environment has its value
    there, also when a file sets it; another key has the value of the last of
    the given files that sets it; a path that is not a file is passed over;
    the files are read as UTF-8 when no encoding is given. *)
Theorem environment_overrides_dotenv host values :
  dotenv_values host = Some values ->
  NoDup (dict_keys (environ host)) ->
  (forall ps enc,
      let loaded := load_dotenv_files host values (effective_encoding enc) ps [] in
      exists vars,
        env_source_provider host (Some (DotenvPaths ps)) enc = Ok vars /\
        forall k, dict_get k vars =
                  match dict_get k (environ host) with
                  | Some v => Some v
                  | None => dict_get k loaded
                  end)
  /\ (forall p enc,
      p <> EmptyString ->
      env_source_provider host (Some (DotenvPath p)) enc =
      env_source_provider host (Some (DotenvPaths [p])) enc)
  /\ (forall encoding ps p acc,
      load_dotenv_files host values encoding (ps ++ [p]) acc =
      if is_file host (expanduser host p)
      then dict_update (load_dotenv_files host values encoding ps acc)
             (values (expanduser host p) encoding)
      else load_dotenv_files host values encoding ps acc)
  /\ (forall encoding before p after acc,
      is_file host (expanduser host p) = false ->
      load_dotenv_files host values encoding (before ++ p :: after) acc =
      load_dotenv_files host values encoding (before ++ after) acc)
  /\ (forall paths,
      env_source_provider host paths None =
      env_source_provider host paths (Some "utf8")
      /\ dotenv_source_provider host paths None =
         dotenv_source_provider host paths (Some "utf8")).
Proof.
  intros Hi Hn. split; [|split; [|split; [|split]]].
  - intros ps enc loaded. eexists. split.
    + apply env_source_provider_paths, Hi.
    + intros k. rewrite dict_get_update, dict_get_rev by exact Hn. reflexivity.
  - intros p enc Hp.
    rewrite (env_source_provider_path host values Hi p enc Hp).
    now rewrite (env_source_provider_paths host values Hi [p] enc).
  - intros. apply load_dotenv_files_last.
  - intros. now apply load_dotenv_files_skip.
  - intros paths. split; reflexivity.
Qed.



(** * Further properties of the mapper *)

(** ** The index when no two keys collide *)

Lemma dict_set_absent {V} (k : string) (v : V) (d : dict V) :
  k ∉ dict_keys d -> dict_set k v d = d ++ [(k, v)].
Proof.
  induction d as [|[k' v'] d IH]; simpl; intros H; [reflexivity|].
  apply not_elem_of_cons in H as [Hne H].
  destruct (String.eqb_spec k k'); [contradiction|]. now rewrite IH.
Qed.

Lemma keymap_fold_distinct case_sensitive source_keys : forall keydb,
  NoDup (dict_keys keydb ++ map (normalize case_sensitive) source_keys) ->
  fold_left
    (fun keydb source_key =>
       let key := normalize case_sensitive source_key in
       if dict_mem key keydb then keydb else dict_set key source_key keydb)
    source_keys keydb =
  keydb ++ map (fun k => (normalize case_sensitive k, k)) source_keys.
Proof.
  induction source_keys as [|sk ks IH]; intros keydb H; simpl.
  - now rewrite app_nil_r.
  - simpl in H.
    assert (Hnin : normalize case_sensitive sk ∉ dict_keys keydb).
    { apply NoDup_app in H as (_ & H & _). intros Hin.
      apply (H _ Hin). apply elem_of_cons. now left. }
    assert (E : dict_mem (normalize case_sensitive sk) keydb = false).
    { destruct (dict_mem _ keydb) eqn:E; [|reflexivity].
      apply dict_mem_keys in E. contradiction. }
    rewrite E, dict_set_absent by exact Hnin.
    rewrite IH.
    + now rewrite <- app_assoc.
    + unfold dict_keys. rewrite map_app. simpl. now rewrite <- app_assoc.
Qed.

Lemma keymap_distinct case_sensitive source_keys :
  NoDup (map (normalize case_sensitive) source_keys) ->
  build_keymap case_sensitive source_keys =
    map (fun k => (normalize case_sensitive k, k)) source_keys
  /\ (forall k, k ∈ source_keys ->
        dict_get (normalize case_sensitive k)
          (build_keymap case_sensitive source_keys) = Some k).
Proof.
  intros H.
  assert (E : build_keymap case_sensitive source_keys =
              map (fun k => (normalize case_sensitive k, k)) source_keys)
    by (unfold build_keymap; now rewrite keymap_fold_distinct).
  split; [exact E|].
  intros k Hk. rewrite E. clear E.
  induction source_keys as [|k0 ks IH]; [now apply elem_of_nil in Hk|].
  simpl in H |- *. apply NoDup_cons in H as [Hnin Hnd].
  apply elem_of_cons in Hk as [->|Hk]; [now rewrite String.eqb_refl|].
  destruct (String.eqb_spec (normalize case_sensitive k) (normalize case_sensitive k0))
    as [Heq|_]; [|now apply IH].
  exfalso. apply Hnin. rewrite <- Heq. apply list_elem_of_fmap. now exists k.
Qed.

(** X1.  When the keys of the source have pairwise distinct normal forms,
    the index holds every key of the source under its normal form, in the
    order of the source, and each key is found again under its normal
    form. *)
Theorem keymap_without_collision case_sensitive source_keys :
  NoDup (map (normalize case_sensitive) source_keys) ->
  build_keymap case_sensitive source_keys =
    map (fun k => (normalize case_sensitive k, k)) source_keys
  /\ (forall k, k ∈ source_keys ->
        dict_get (normalize case_sensitive k)
          (build_keymap case_sensitive source_keys) = Some k).
Proof. apply keymap_distinct. Qed.


(** ** Names that stand for no value *)

Lemma probe_no_value m field key st :
  cache_ok m st -> lookup_value m key = None ->
  probe m field key st = (Ok OSkip, cached m st).
Proof.
  intros Hc H. unfold probe, bind. rewrite (keymap_run m st Hc).
  unfold lookup_value in H.
  destruct (dict_get key _) as [sk|]; [|reflexivity].
  destruct (String.eqb sk EmptyString); [reflexivity|].
  destruct (dict_get sk (source m)) as [[]|]; try discriminate; reflexivity.
Qed.

Lemma get_field_value_no_value m field names : forall st,
  cache_ok m st ->
  Forall (fun key => lookup_value m key = None) names ->
  exists st', get_field_value m names field st = (Ok REmpty, st')
              /\ heap st' = heap st /\ cache_ok m st'.
Proof.
  unfold get_field_value.
  induction names as [|key names IH]; intros st Hc H.
  - exists st. repeat split; assumption.
  - apply Forall_cons in H as [Hk H].
    rewrite loop_cons, (probe_no_value m field key st Hc Hk).
    destruct (IH (cached m st) (cache_ok_cached m st) H) as (st' & E & Hh & Hc').
    exists st'. repeat split; assumption.
Qed.

(** X2.  A search name that is not in the index, or whose key is empty, or
    whose value in the source is [None], is passed over: the response is the
    one of the names that follow.  In particular a value [None] is never
    returned for a key of the source. *)
Theorem name_without_value_is_skipped m field key rest st :
  cache_ok m st ->
  lookup_value m key = None ->
  get_field_value m (key :: rest) field st =
  get_field_value m rest field (cached m st).
Proof. intros Hc H. now apply skip_step, probe_no_value. Qed.


(** ** Names that stand for a value *)

Lemma probe_value m field key value st :
  cache_ok m st -> lookup_value m key = Some value ->
  probe m field key st =
  (value' <- decode_value m field key value ;;
   match value' with
   | HRef l => d <- read l ;; ret (OFragment d)
   | _ => ret (OScalar value')
   end) (cached m st).
Proof.
  intros Hc H. unfold probe, decode_value.
  unfold bind at 1. rewrite (keymap_run m st Hc).
  unfold lookup_value in H.
  destruct (dict_get key _) as [sk|]; [|discriminate].
  destruct (String.eqb sk EmptyString); [discriminate|].
  destruct (dict_get sk (source m)) as [[]|]; try discriminate;
    injection H as <-; destruct (field_is_complex field) as [c a];
    reflexivity.
Qed.

Lemma get_field_value_at m field pre key rest st r st1 :
  cache_ok m st ->
  get_field_value m pre field st = (Ok r, st1) ->
  is_scalar r = false ->
  cache_ok m st1 /\
  get_field_value m (pre ++ key :: rest) field st =
  get_field_value_loop m field (key :: rest) (items_of r) st1.
Proof.
  intros Hc Hpre Hr. split.
  - pose proof (preserves_get_field_value m pre field st Hc) as [H _].
    now rewrite Hpre in H.
  - unfold get_field_value in *. rewrite loop_app, Hpre.
    destruct r; try discriminate; reflexivity.
Qed.

(** When the fields before return and the response for a field raises, the
    call raises. *)
Lemma call_aborts m before field after st0 res st1 e st2 :
  call m before st0 = (Ok res, st1) ->
  get_field_value m (field_names m field EmptyString) field st1 = (Err e, st2) ->
  call m (before ++ field :: after) st0 = (Err e, st2).
Proof.
  intros Hcall Hg.
  rewrite (call_app m before (field :: after) st0 res st1 Hcall).
  cbn [for_each]. unfold bind at 1.
  rewrite update_result_for_field_eq. cbv zeta.
  unfold bind at 1. now rewrite Hg.
Qed.

(** X3.  An exception of the decoder that is not a [ValueError] is not
    caught: it leaves [get_field_value], also for a union that tolerates
    decoding failures, and the call on the fields raises it. *)
Theorem other_decoder_error_propagates m field pre key rest raw :
  lookup_value m key = Some raw ->
  is_dict raw = false ->
  fst (field_is_complex field) = true ->
  complex_parser m (name field) raw = ParseOtherError ->
  (forall st r st1,
      cache_ok m st ->
      get_field_value m pre field st = (Ok r, st1) ->
      is_scalar r = false ->
      get_field_value m (pre ++ key :: rest) field st
        = (Err ParserError, cached m st1))
  /\ (forall before after st0 res st1 r st2,
      cache_ok m st0 ->
      call m before st0 = (Ok res, st1) ->
      field_names m field EmptyString = pre ++ key :: rest ->
      get_field_value m pre field st1 = (Ok r, st2) ->
      is_scalar r = false ->
      call m (before ++ field :: after) st0 = (Err ParserError, cached m st2)).
Proof.
  intros Hv Hd Hc Hp.
  assert (G : forall st r st1,
      cache_ok m st ->
      get_field_value m pre field st = (Ok r, st1) ->
      is_scalar r = false ->
      get_field_value m (pre ++ key :: rest) field st
        = (Err ParserError, cached m st1)).
  { intros st r st1 Hst Hpre Hr.
    destruct (get_field_value_at m field pre key rest st r st1 Hst Hpre Hr)
      as [Hst1 ->].
    rewrite loop_cons, (probe_value m field key raw st1 Hst1 Hv).
    unfold decode_value. destruct (field_is_complex field) as [c a].
    simpl in Hc. subst c. rewrite Hd, Hp. reflexivity. }
  split; [exact G|].
  intros before after st0 res st1 r st2 Hst Hcall Hnames Hpre Hr.
  eapply call_aborts; [exact Hcall|]. rewrite Hnames.
  apply (G st1 r st2); try assumption.
  pose proof (preserves_call m before st0 Hst) as [H _]. now rewrite Hcall in H.
Qed.


Lemma alloc_tree_leaf t st :
  is_pdict t = false -> alloc_tree t st = (Ok (leaf t), st).
Proof. destruct t; try reflexivity; discriminate. Qed.

(** X4.  For a complex field, a text that the decoder turns into a value
    that is not a dictionary (a list, a number, [None]) makes that decoded
    value the response, not the text, and the names that follow are not
    searched; the heap is left as it is. *)
Theorem decoded_value_is_returned m field pre key rest raw t st r st1 :
  cache_ok m st ->
  get_field_value m pre field st = (Ok r, st1) ->
  is_scalar r = false ->
  lookup_value m key = Some raw ->
  is_dict raw = false ->
  fst (field_is_complex field) = true ->
  complex_parser m (name field) raw = Parsed t ->
  is_pdict t = false ->
  get_field_value m (pre ++ key :: rest) field st
    = (Ok (RVal (leaf t)), cached m st1).
Proof.
  intros Hst Hpre Hr Hv Hd Hc Hp Ht.
  destruct (get_field_value_at m field pre key rest st r st1 Hst Hpre Hr)
    as [Hst1 ->].
  rewrite loop_cons, (probe_value m field key raw st1 Hst1 Hv).
  unfold decode_value. destruct (field_is_complex field) as [c a].
  simpl in Hc. subst c. rewrite Hd, Hp. cbn [andb negb].
  unfold bind. rewrite (alloc_tree_leaf t _ Ht).
  destruct t; try reflexivity; discriminate.
Qed.


(** ** Fields for which nothing is found *)

Lemma update_unmatched m f prefix result st :
  cache_ok m st ->
  Forall (fun key => lookup_value m key = None) (field_names m f prefix) ->
  type_fields f = None \/ delimiter_set m = None \/ field_names m f prefix = [] ->
  exists st', update_result_for_field m f prefix result st = (Ok tt, st')
              /\ heap st' = heap st /\ cache_ok m st'.
Proof.
  intros Hc Hn Hflat.
  destruct (get_field_value_no_value m f _ st Hc Hn) as (st' & E & Hh & Hc').
  exists st'. split; [|split; assumption].
  rewrite update_result_for_field_eq. cbv zeta. unfold bind at 1. rewrite E.
  cbn [store_response]. unfold bind at 1. cbn [ret].
  destruct Hflat as [-> | [-> | ->]]; [reflexivity | | ].
  - now destruct (type_fields f).
  - destruct (type_fields f) as [fs|]; [|reflexivity].
    now destruct (delimiter_set m).
Qed.

(** X5.  A field none of whose search names stands for a value, and that is
    not a model resolved with a delimiter (or has no search name at all),
    leaves the result and every other dictionary as they are; a call on
    such fields only returns a new empty dictionary. *)
Theorem unmatched_field_is_absent m :
  (forall f prefix result st,
      cache_ok m st ->
      Forall (fun key => lookup_value m key = None) (field_names m f prefix) ->
      type_fields f = None \/ delimiter_set m = None
        \/ field_names m f prefix = [] ->
      exists st', update_result_for_field m f prefix result st = (Ok tt, st')
                  /\ heap st' = heap st)
  /\ (forall fields st,
      cache_ok m st ->
      Forall (fun f =>
                Forall (fun key => lookup_value m key = None)
                  (field_names m f EmptyString)
                /\ (type_fields f = None \/ delimiter_set m = None
                    \/ field_names m f EmptyString = [])) fields ->
      exists st', call m fields st = (Ok (HRef (length (heap st))), st')
                  /\ heap st' = heap st ++ [[]]).
Proof.
  split.
  - intros f prefix result st Hc Hn Hflat.
    destruct (update_unmatched m f prefix result st Hc Hn Hflat)
      as (st' & E & Hh & _).
    now exists st'.
  - intros fields st Hc Hall. unfold call, bind. cbn [alloc].
    assert (G : forall st1, cache_ok m st1 ->
      exists st', for_each
          (fun field => update_result_for_field m field EmptyString
                          (HRef (length (heap st)))) fields st1 = (Ok tt, st')
        /\ heap st' = heap st1).
    { induction Hall as [|f fields [Hn Hflat] _ IH]; intros st1 Hc1.
      - exists st1. split; reflexivity.
      - cbn [for_each]. unfold bind.
        destruct (update_unmatched m f EmptyString (HRef (length (heap st)))
                    st1 Hc1 Hn Hflat) as (st2 & E & Hh & Hc2).
        rewrite E. destruct (IH st2 Hc2) as (st3 & E3 & Hh3).
        exists st3. split; [exact E3 | congruence]. }
    destruct (G (snd (alloc [] st)) Hc) as (st' & E & Hh).
    cbn [alloc snd] in E. rewrite E. exists st'. split; [reflexivity | exact Hh].
Qed.


(** ** Fields with an explicit name *)

(** X6.  A field has an explicit [env] when [get_field_info] gives a true
    value for it, or the field carries an [env] that is not [None].  Such a
    field is searched under its names as they are, whatever the prefix: it
    is resolved in the same way at the top and inside a nested model. *)
Theorem explicit_env_is_absolute m f :
  (has_env m f = true <->
     truthy (default PNone (dict_get "env" (get_field_info m (name f)))) = true
     \/ extra_env f <> PNone)
  /\ (has_env m f = true ->
      forall prefix1 prefix2 result st,
        field_names m f prefix1 = extra_env_names f /\
        update_result_for_field m f prefix1 result st =
        update_result_for_field m f prefix2 result st).
Proof.
  split.
  - unfold has_env, py_or.
    destruct (truthy (default PNone _)) eqn:T.
    + split; [now left | intros _].
      destruct (default PNone _); try reflexivity; discriminate.
    + destruct (extra_env f); simpl; split; intros H;
        try reflexivity; try discriminate;
        try (right; discriminate);
        destruct H as [H|H]; try discriminate; congruence.
  - intros H prefix1 prefix2 result st.
    assert (E : forall p, field_names m f p = extra_env_names f)
      by (intros p; unfold field_names; now rewrite H).
    split; [apply E|].
    rewrite !update_result_for_field_eq. cbv zeta. now rewrite !E.
Qed.


(** ** Searching writes nothing *)

Section Appends.
Variable m : SourceMapper.

Lemma appends_ret {A} (a : A) : appends (ret a).
Proof. intros st. exists []. simpl. now rewrite app_nil_r. Qed.

Lemma appends_raise {A} e : appends (@raise A e).
Proof. intros st. exists []. simpl. now rewrite app_nil_r. Qed.

Lemma appends_bind {A B} (c : M A) (k : A -> M B) :
  appends c -> (forall a, appends (k a)) -> appends (bind c k).
Proof.
  intros Hc Hk st. unfold bind. destruct (Hc st) as [more E].
  destruct (c st) as [[a|e] st1]; simpl in E.
  - destruct (Hk a st1) as [more' E']. exists (more ++ more').
    now rewrite E', E, app_assoc.
  - now exists more.
Qed.

Lemma appends_read l : appends (read l).
Proof. intros st. exists []. simpl. now rewrite app_nil_r. Qed.

Lemma appends_alloc d : appends (alloc d).
Proof. intros st. now exists [d]. Qed.

Lemma appends_keymap : appends (keymap m).
Proof.
  intros st. exists []. unfold keymap.
  destruct (keymap_cache st); simpl; now rewrite app_nil_r.
Qed.

Lemma appends_map_m {A B} (body : A -> M B) xs :
  Forall (fun x => appends (body x)) xs -> appends (map_m body xs).
Proof.
  induction 1 as [|x xs Hx _ IH]; simpl; [apply appends_ret|].
  apply appends_bind; [exact Hx|]. intros y.
  apply appends_bind; [exact IH|]. intros ys. apply appends_ret.
Qed.

Lemma appends_alloc_tree v : appends (alloc_tree v).
Proof.
  induction v as [| s | z | l | d IH] using pyval_dict_ind;
    try apply appends_ret.
  cbn [alloc_tree]. apply appends_bind.
  - apply appends_map_m. eapply Forall_impl; [exact IH|].
    intros [k x] Hx. simpl in Hx.
    apply appends_bind; [exact Hx | intros; apply appends_ret].
  - intros entries. apply appends_bind; [apply appends_alloc|].
    intros; apply appends_ret.
Qed.

Ltac app_step :=
  first
    [ apply appends_ret | apply appends_raise | apply appends_read
    | apply appends_alloc | apply appends_keymap | apply appends_alloc_tree
    | apply appends_bind; [|intros ?]
    | match goal with
      | |- appends (match ?x with _ => _ end) => destruct x
      end ].

Lemma appends_loop field names : forall acc,
  appends (get_field_value_loop m field names acc).
Proof.
  induction names as [|key names IH]; intros acc;
    cbn [get_field_value_loop]; repeat app_step; apply IH.
Qed.
End Appends.

Lemma heap_get_app_l h more l :
  l < length h -> heap_get (h ++ more) l = heap_get h l.
Proof. intros H. unfold heap_get. now rewrite lookup_app_l. Qed.

(** X7.  [get_field_value] writes to no dictionary that exists: whatever it
    returns or raises, the heap after it is the heap before it followed by
    the new dictionaries of the values it decoded, so that the dictionaries
    of the source and of the result read as before. *)
Theorem search_only_allocates m names field st :
  (exists more,
      heap (snd (get_field_value m names field st)) = heap st ++ more)
  /\ (forall l, l < length (heap st) ->
        heap_get (heap (snd (get_field_value m names field st))) l
        = heap_get (heap st) l).
Proof.
  destruct (appends_loop m field names [] st) as [more E].
  split; [now exists more|].
  intros l Hl. unfold get_field_value. rewrite E. now apply heap_get_app_l.
Qed.


(** ** Storing a response *)

Lemma bind_unit (c : M unit) st : bind c (fun _ => ret tt) st = c st.
Proof. unfold bind, ret. now destruct (c st) as [[[]|e] st1]. Qed.

Lemma update_without_recursion m f prefix result st :
  type_fields f = None \/ delimiter_set m = None ->
  update_result_for_field m f prefix result st =
  (response <- get_field_value m (field_names m f prefix) f ;;
   store_response f result response) st.
Proof.
  intros H. rewrite update_result_for_field_eq. cbv zeta.
  apply bind_ext; [reflexivity | intros r st1].
  assert (E : match type_fields f, delimiter_set m with
              | Some fs, Some delimiter =>
                  for_each (fun name =>
                    for_each (fun f0 =>
                      sub <- py_setdefault result (alias f) ;;
                      update_result_for_field m f0 (name ++ delimiter)%string sub) fs)
                    (field_names m f prefix)
              | _, _ => ret tt
              end = ret tt).
  { destruct H as [-> | ->]; [reflexivity | now destruct (type_fields f)]. }
  rewrite E. apply bind_unit.
Qed.

Section Store.
Variables (m : SourceMapper) (f : ModelField) (prefix : string).
Variables (l : nat) (st st1 : state).
Hypothesis Hflat : type_fields f = None \/ delimiter_set m = None.

Lemma store_scalar v :
  get_field_value m (field_names m f prefix) f st = (Ok (RVal v), st1) ->
  update_result_for_field m f prefix (HRef l) st =
  (Ok tt, mkState (<[l := dict_set (alias f) v (heap_get (heap st1) l)]> (heap st1))
                  (keymap_cache st1)).
Proof.
  intros E. rewrite (update_without_recursion m f prefix _ st Hflat).
  unfold bind at 1. rewrite E. reflexivity.
Qed.

Lemma store_mapping_new d :
  get_field_value m (field_names m f prefix) f st = (Ok (RDict d), st1) ->
  l < length (heap st1) ->
  dict_get (alias f) (heap_get (heap st1) l) = None ->
  exists st2,
    update_result_for_field m f prefix (HRef l) st = (Ok tt, st2) /\
    heap_get (heap st2) l =
      dict_set (alias f) (HRef (length (heap st1))) (heap_get (heap st1) l) /\
    heap_get (heap st2) (length (heap st1)) = dict_update [] d.
Proof.
  intros E Hl Hk. rewrite (update_without_recursion m f prefix _ st Hflat).
  unfold bind at 1. rewrite E. cbn [store_response]. unfold bind at 1.
  rewrite py_setdefault_absent by assumption.
  unfold py_update, bind, read, write. cbn [heap keymap_cache].
  eexists. split; [reflexivity|]. cbn [heap].
  rewrite heap_get_insert_ne by lia.
  rewrite !heap_get_insert_eq
    by (rewrite ?length_insert, length_app; simpl; lia).
  rewrite heap_get_insert_ne by lia.
  now rewrite heap_get_alloc_new.
Qed.

Lemma store_mapping_merge d l2 :
  get_field_value m (field_names m f prefix) f st = (Ok (RDict d), st1) ->
  l < length (heap st1) -> l2 < length (heap st1) ->
  dict_get (alias f) (heap_get (heap st1) l) = Some (HRef l2) ->
  exists st2,
    update_result_for_field m f prefix (HRef l) st = (Ok tt, st2) /\
    heap_get (heap st2) l2 = dict_update (heap_get (heap st1) l2) d /\
    (forall l', l' <> l2 -> l' < length (heap st1) ->
                heap_get (heap st2) l' = heap_get (heap st1) l').
Proof.
  intros E Hl Hl2 Hk. rewrite (update_without_recursion m f prefix _ st Hflat).
  unfold bind at 1. rewrite E. cbn [store_response]. unfold bind at 1.
  rewrite (py_setdefault_present l (alias f) (HRef l2) st1 Hl Hk).
  unfold py_update, bind, read, write. cbn [heap keymap_cache].
  eexists. split; [reflexivity|]. cbn [heap]. split.
  - rewrite heap_get_insert_eq by (rewrite length_app; simpl; lia).
    now rewrite heap_get_alloc by exact Hl2.
  - intros l' Hne Hl'. rewrite heap_get_insert_ne by congruence.
    now apply heap_get_alloc.
Qed.

Lemma store_mapping_on_scalar d v :
  get_field_value m (field_names m f prefix) f st = (Ok (RDict d), st1) ->
  l < length (heap st1) ->
  dict_get (alias f) (heap_get (heap st1) l) = Some v ->
  is_dict v = false ->
  update_result_for_field m f prefix (HRef l) st =
  (Err AttributeError, mkState (heap st1 ++ [[]]) (keymap_cache st1)).
Proof.
  intros E Hl Hk Hv. rewrite (update_without_recursion m f prefix _ st Hflat).
  unfold bind at 1. rewrite E. cbn [store_response]. unfold bind at 1.
  rewrite (py_setdefault_present l (alias f) v st1 Hl Hk).
  destruct v; try reflexivity; discriminate.
Qed.
End Store.

(** X8.  For a field that is not resolved further (its type is not a model,
    or no delimiter is set): a response that is not a dictionary is assigned
    under the alias of the field, in place when the alias is there and last
    otherwise, the other entries of the result staying as they are; a
    response that is a dictionary goes into a new dictionary under the alias
    when the alias is not there, and is merged into the dictionary under the
    alias when there is one, whose other entries stay. *)
Theorem response_is_stored m f prefix l st st1 :
  type_fields f = None \/ delimiter_set m = None ->
  (forall v,
      get_field_value m (field_names m f prefix) f st = (Ok (RVal v), st1) ->
      update_result_for_field m f prefix (HRef l) st =
      (Ok tt, mkState (<[l := dict_set (alias f) v (heap_get (heap st1) l)]> (heap st1))
                      (keymap_cache st1)))
  /\ (forall d,
      get_field_value m (field_names m f prefix) f st = (Ok (RDict d), st1) ->
      l < length (heap st1) ->
      dict_get (alias f) (heap_get (heap st1) l) = None ->
      exists st2,
        update_result_for_field m f prefix (HRef l) st = (Ok tt, st2) /\
        heap_get (heap st2) l =
          dict_set (alias f) (HRef (length (heap st1))) (heap_get (heap st1) l) /\
        heap_get (heap st2) (length (heap st1)) = dict_update [] d)
  /\ (forall d l2,
      get_field_value m (field_names m f prefix) f st = (Ok (RDict d), st1) ->
      l < length (heap st1) -> l2 < length (heap st1) ->
      dict_get (alias f) (heap_get (heap st1) l) = Some (HRef l2) ->
      exists st2,
        update_result_for_field m f prefix (HRef l) st = (Ok tt, st2) /\
        heap_get (heap st2) l2 = dict_update (heap_get (heap st1) l2) d /\
        (forall l', l' <> l2 -> l' < length (heap st1) ->
                    heap_get (heap st2) l' = heap_get (heap st1) l')).
Proof.
  intros H. split; [|split].
  - intros. now apply store_scalar.
  - intros. now apply store_mapping_new.
  - intros. now apply store_mapping_merge.
Qed.


(** X9.  For such a field, a response that is a dictionary, when the result
    holds under the alias of the field a value that is not a dictionary,
    raises [AttributeError]; the dictionaries that exist are left as they
    are. *)
Theorem mapping_on_scalar_raises m f prefix l st st1 d v :
  type_fields f = None \/ delimiter_set m = None ->
  get_field_value m (field_names m f prefix) f st = (Ok (RDict d), st1) ->
  l < length (heap st1) ->
  dict_get (alias f) (heap_get (heap st1) l) = Some v ->
  is_dict v = false ->
  update_result_for_field m f prefix (HRef l) st =
  (Err AttributeError, mkState (heap st1 ++ [[]]) (keymap_cache st1)).
Proof. intros. eapply store_mapping_on_scalar; eauto. Qed.


(** ** What a call depends on *)

Lemma loop_congruence m1 m2 f1 f2 :
  (forall key st, probe m1 f1 key st = probe m2 f2 key st) ->
  forall names acc st,
    get_field_value_loop m1 f1 names acc st =
    get_field_value_loop m2 f2 names acc st.
Proof.
  intros H names. induction names as [|key names IH]; intros acc st;
    [reflexivity|].
  rewrite !loop_cons, H.
  destruct (probe m2 f2 key st) as [[[| d | v]|e] st1];
    try reflexivity; apply IH.
Qed.

Lemma update_congruence m1 m2 :
  (forall field key st, probe m1 field key st = probe m2 field key st) ->
  (forall f prefix, field_names m1 f prefix = field_names m2 f prefix) ->
  delimiter_set m1 = delimiter_set m2 ->
  forall field prefix result st,
    update_result_for_field m1 field prefix result st =
    update_result_for_field m2 field prefix result st.
Proof.
  intros Hp Hn Hd field.
  induction field as [n a e ee c u sf tf IH] using ModelField_nested_ind.
  intros prefix result st. rewrite !update_result_for_field_eq. cbv zeta.
  rewrite Hn, Hd.
  apply bind_ext; [intros; now apply loop_congruence | intros r st1].
  apply bind_ext; [reflexivity | intros _ st2].
  cbn [type_fields alias]. destruct tf as [fs|]; [|reflexivity].
  destruct (delimiter_set m2) as [delimiter|]; [|reflexivity].
  apply for_each_ext, Forall_forall. intros nm _ st3.
  apply for_each_ext. eapply Forall_impl; [exact IH|].
  intros f Hf st4. simpl.
  apply bind_ext; [reflexivity | intros sub st5; apply Hf].
Qed.

Lemma call_congruence m1 m2 :
  (forall field key st, probe m1 field key st = probe m2 field key st) ->
  (forall f prefix, field_names m1 f prefix = field_names m2 f prefix) ->
  delimiter_set m1 = delimiter_set m2 ->
  forall fields st, call m1 fields st = call m2 fields st.
Proof.
  intros Hp Hn Hd fields st.
  unfold call. apply bind_ext; [reflexivity | intros l st1].
  apply bind_ext; [|reflexivity].
  apply for_each_ext, Forall_forall. intros f _ st2.
  now apply update_congruence.
Qed.

Lemma dict_get_Forall {V} (P : string * V -> Prop) (d : dict V) k v :
  Forall P d -> dict_get k d = Some v -> exists k', P (k', v).
Proof.
  induction 1 as [|[k0 v0] d H0 _ IH]; simpl; [discriminate|].
  destruct (String.eqb k k0); [|exact IH].
  intros [= <-]. now exists k0.
Qed.

(** X10.  A value of the source that is a dictionary is never handed to the
    decoder: over a source whose values are dictionaries or [None], a call
    gives the same outcome with any decoder, for all fields. *)
Theorem mapping_values_are_not_decoded m parser fields st :
  Forall (fun kv => is_dict (snd kv) = true \/ snd kv = HNone) (source m) ->
  call (with_parser m parser) fields st = call m fields st.
Proof.
  intros H. apply call_congruence; try reflexivity.
  intros field key st0. unfold probe, bind, keymap.
  cbn [with_parser case_sensitive source complex_parser].
  destruct (keymap_cache st0) as [kb|];
    match goal with
    | |- context [dict_get key ?kb] => destruct (dict_get key kb) as [sk|]
    end; try reflexivity;
    (destruct (String.eqb sk EmptyString); [reflexivity|];
     destruct (dict_get sk (source m)) as [value|] eqn:E; [|reflexivity];
     destruct (dict_get_Forall _ _ _ _ H E) as [k' [Hd | Hn]];
     [ simpl in Hd; destruct value; try discriminate;
       destruct (field_is_complex field) as [c a]; simpl;
       rewrite andb_false_r; reflexivity
     | simpl in Hn; subst value; reflexivity ]).
Qed.


(** X11.  Nesting needs a delimiter that is not empty: with the empty
    delimiter a call gives the same outcome as with none, and when none is
    set the fields of the model of a field play no part in resolving it. *)
Theorem nesting_needs_delimiter m :
  (forall fields st,
      call (with_delimiter m (Some EmptyString)) fields st =
      call (with_delimiter m None) fields st)
  /\ (delimiter_set m = None ->
      forall f fs prefix result st,
        update_result_for_field m (with_type_fields f fs) prefix result st =
        update_result_for_field m f prefix result st).
Proof.
  split.
  - intros fields st. apply call_congruence; reflexivity.
  - intros Hd f fs prefix result st.
    rewrite !update_result_for_field_eq. cbv zeta. rewrite Hd.
    change (field_names m (with_type_fields f fs)) with (field_names m f).
    apply bind_ext.
    + intros st0. unfold get_field_value.
      apply loop_congruence. intros key st1. destruct f; reflexivity.
    + intros r st1. apply bind_ext; [reflexivity | intros _ st2].
      cbn [with_type_fields type_fields].
      destruct fs; destruct (type_fields f); reflexivity.
Qed.


(** ** Plain fields over a source without dictionaries *)

Section Flat.
Variable m : SourceMapper.
Hypothesis Hflat : flat_source m.

Lemma flat_lookup key v : lookup_value m key = Some v -> is_dict v = false.
Proof.
  unfold lookup_value.
  destruct (dict_get key _) as [sk|]; [|discriminate].
  destruct (String.eqb sk EmptyString); [discriminate|].
  destruct (dict_get sk (source m)) as [value|] eqn:E; [|discriminate].
  destruct (dict_get_Forall _ _ _ _ Hflat E) as [k' Hd]. simpl in Hd.
  destruct value; try discriminate; intros [= <-]; exact Hd.
Qed.

Lemma flat_first_value names v : first_value m names = Some v -> is_dict v = false.
Proof.
  induction names as [|key names IH]; simpl; [discriminate|].
  destruct (lookup_value m key) as [v0|] eqn:E; [|exact IH].
  intros [= <-]. eapply flat_lookup, E.
Qed.

Lemma get_field_value_flat f names : forall st,
  cache_ok m st ->
  fst (field_is_complex f) = false ->
  exists st',
    get_field_value m names f st =
      (Ok (match first_value m names with
           | Some v => RVal v
           | None => REmpty
           end), st')
    /\ heap st' = heap st /\ cache_ok m st'.
Proof.
  unfold get_field_value.
  induction names as [|key names IH]; intros st Hc Hp.
  - exists st. repeat split; assumption.
  - rewrite loop_cons. cbn [first_value].
    destruct (lookup_value m key) as [v|] eqn:E.
    + rewrite (probe_value m f key v st Hc E).
      unfold decode_value. destruct (field_is_complex f) as [c a].
      simpl in Hp. subst c. cbn [andb]. unfold bind, ret.
      pose proof (flat_lookup key v E) as Hd.
      exists (cached m st). split; [|split; [reflexivity | apply cache_ok_cached]].
      destruct v; try reflexivity; discriminate.
    + rewrite (probe_no_value m f key st Hc E).
      destruct (IH (cached m st) (cache_ok_cached m st) Hp) as (st' & E' & Hh & Hc').
      exists st'. repeat split; assumption.
Qed.

Lemma update_flat f l st :
  cache_ok m st -> plain_field f ->
  exists st',
    update_result_for_field m f EmptyString (HRef l) st = (Ok tt, st')
    /\ heap st' = <[l := assign_first m (heap_get (heap st) l) f]> (heap st)
    /\ cache_ok m st'.
Proof.
  intros Hc [Hp Hty].
  destruct (get_field_value_flat f (field_names m f EmptyString) st Hc Hp)
    as (st1 & E & Hh & Hc1).
  rewrite (update_without_recursion m f EmptyString _ st (or_introl Hty)).
  unfold bind at 1. rewrite E. unfold assign_first.
  destruct (first_value m (field_names m f EmptyString)) as [v|].
  - cbn [store_response py_setitem]. unfold bind, read, write.
    eexists. split; [reflexivity|]. cbn [heap keymap_cache].
    rewrite Hh. split; [reflexivity|].
    destruct Hc1 as [H|H]; [left | right]; exact H.
  - exists st1. split; [reflexivity|]. split; [|exact Hc1].
    rewrite Hh. unfold heap_get.
    destruct (heap st !! l) as [d|] eqn:El; simpl.
    + symmetry. now apply list_insert_id.
    + symmetry. apply list_insert_ge. now apply lookup_ge_None.
Qed.

Lemma fields_flat l fields : forall st,
  cache_ok m st -> Forall plain_field fields -> l < length (heap st) ->
  exists st',
    for_each (fun field => update_result_for_field m field EmptyString (HRef l))
      fields st = (Ok tt, st')
    /\ heap st' =
       <[l := fold_left (assign_first m) fields (heap_get (heap st) l)]> (heap st)
    /\ cache_ok m st'.
Proof.
  induction fields as [|f fields IH]; intros st Hc Hall Hl.
  - exists st. split; [reflexivity|]. split; [|exact Hc].
    simpl. unfold heap_get.
    destruct (heap st !! l) as [d|] eqn:El; simpl.
    + symmetry. now apply list_insert_id.
    + symmetry. apply list_insert_ge. now apply lookup_ge_None.
  - apply Forall_cons in Hall as [Hf Hall].
    destruct (update_flat f l st Hc Hf) as (st1 & E1 & Hh1 & Hc1).
    assert (Hl1 : l < length (heap st1)) by (rewrite Hh1, length_insert; exact Hl).
    destruct (IH st1 Hc1 Hall Hl1) as (st2 & E2 & Hh2 & Hc2).
    exists st2. split; [|split; [|exact Hc2]].
    + cbn [for_each]. unfold bind. now rewrite E1.
    + rewrite Hh2, Hh1. rewrite heap_get_insert_eq by exact Hl.
      simpl. now rewrite list_insert_insert_eq.
Qed.

Lemma call_flat fields st :
  cache_ok m st -> Forall plain_field fields ->
  exists st',
    call m fields st = (Ok (HRef (length (heap st))), st')
    /\ heap st' = heap st ++ [fold_left (assign_first m) fields []]
    /\ cache_ok m st'.
Proof.
  intros Hc Hall. unfold call, bind. cbn [alloc].
  assert (Hc0 : cache_ok m (snd (alloc [] st))) by exact Hc.
  assert (Hl : length (heap st) < length (heap (snd (alloc [] st))))
    by (cbn [alloc snd heap]; rewrite length_app; simpl; lia).
  destruct (fields_flat (length (heap st)) fields _ Hc0 Hall Hl)
    as (st' & E & Hh & Hc').
  cbn [alloc snd] in E. rewrite E.
  exists st'. split; [reflexivity|]. split; [|exact Hc'].
  rewrite Hh. cbn [alloc snd heap]. rewrite heap_get_alloc_new.
  rewrite insert_app_r_alt, Nat.sub_diag by lia. reflexivity.
Qed.

Lemma assign_first_flat d f :
  Forall (fun kv => is_dict (snd kv) = false) d ->
  Forall (fun kv => is_dict (snd kv) = false) (assign_first m d f).
Proof.
  intros H. unfold assign_first.
  destruct (first_value m _) as [v|] eqn:E; [|exact H].
  apply flat_first_value in E. clear -H E.
  induction H as [|[k0 v0] d H0 H IH]; simpl.
  - repeat constructor. exact E.
  - destruct (String.eqb (alias f) k0); constructor; assumption.
Qed.

Lemma assigned_flat fields : forall d,
  Forall (fun kv => is_dict (snd kv) = false) d ->
  Forall (fun kv => is_dict (snd kv) = false) (fold_left (assign_first m) fields d).
Proof.
  induction fields as [|f fields IH]; intros d H; simpl; [exact H|].
  apply IH, assign_first_flat, H.
Qed.
End Flat.

(** ** Models over a source without dictionaries *)

Section NestedFlat.
Variable m : SourceMapper.
Hypothesis Hflat : flat_source m.


Variables (p : ModelField) (l t : nat).
Hypothesis Hlt : l <> t.



End NestedFlat.



(** X12.  Over a source none of whose values is a dictionary, a call on
    fields that are neither complex (nor unions with a complex branch) nor
    models never raises, and the result is what giving each field, in the
    order of the fields, the first value its names stand for under its alias
    makes of the empty dictionary; the call adds this dictionary to the heap
    and nothing else. *)
Theorem plain_fields_are_assigned_first_values m fields st :
  flat_source m ->
  cache_ok m st ->
  Forall plain_field fields ->
  exists st',
    call m fields st = (Ok (HRef (length (heap st))), st')
    /\ heap st' = heap st ++ [fold_left (assign_first m) fields []].
Proof.
  intros Hflat Hc Hall.
  destruct (call_flat m Hflat fields st Hc Hall) as (st' & E & Hh & _).
  now exists st'.
Qed.


Lemma reify_flat fuel h h' v :
  is_dict v = false -> reify fuel h v = reify fuel h' v.
Proof. destruct v, fuel; try reflexivity; discriminate. Qed.

Lemma reify_new_flat fuel (h : list (dict hval)) (d : dict hval) :
  Forall (fun kv => is_dict (snd kv) = false) d ->
  reify (S fuel) (h ++ [d]) (HRef (length h)) =
  PDict (map (fun kv => (fst kv, reify fuel [] (snd kv))) d).
Proof.
  intros H. cbn [reify]. rewrite heap_get_alloc_new. f_equal.
  generalize (h ++ [d]). intros h1.
  induction H as [|kv d0 Hk _ IH]; simpl; [reflexivity|].
  now rewrite IH, (reify_flat fuel h1 [] _ Hk).
Qed.

(** X13.  Over a source none of whose values is a dictionary, for fields
    that are neither complex nor models, a second call on the same fields
    returns a mapping equal to the one of the first call. *)
Theorem plain_call_is_repeatable m fields st fuel :
  flat_source m ->
  cache_ok m st ->
  Forall plain_field fields ->
  observe fuel (call m fields (snd (call m fields st)))
  = observe fuel (call m fields st).
Proof.
  intros Hflat Hc Hall.
  destruct (call_flat m Hflat fields st Hc Hall) as (st1 & E1 & Hh1 & Hc1).
  rewrite E1. cbn [snd].
  destruct (call_flat m Hflat fields st1 Hc1 Hall) as (st2 & E2 & Hh2 & _).
  rewrite E2. unfold observe. f_equal.
  destruct fuel as [|fuel]; [reflexivity|].
  match type of Hh1 with
  | _ = _ ++ [?D] =>
      assert (Hd : Forall (fun kv => is_dict (snd kv) = false) D)
        by (apply (assigned_flat m Hflat fields []); apply List.Forall_nil);
      rewrite Hh2, (reify_new_flat fuel (heap st1) D Hd);
      rewrite Hh1, (reify_new_flat fuel (heap st) D Hd)
  end.
  reflexivity.
Qed.


(** * Further properties of the providers *)

(** X14.  Without paths ([None], the empty text, no path in the list) the
    environment provider returns the process environment and asks neither
    for python-dotenv nor for any file: the outcome is the same on every
    host with that environment.  With paths and without python-dotenv it
    raises the [ImportError].  [dotenv_source_provider] tries the import
    first: without python-dotenv it raises the [ImportError] whatever the
    paths, also for [None]. *)
Theorem dotenv_needed_only_for_paths host env_file_paths enc :
  (paths_truthy env_file_paths = false ->
      env_source_provider host env_file_paths enc
        = Ok (dict_update [] (environ host))
      /\ (NoDup (dict_keys (environ host)) ->
          env_source_provider host env_file_paths enc = Ok (environ host))
      /\ (forall host', environ host' = environ host ->
          env_source_provider host' env_file_paths enc
          = env_source_provider host env_file_paths enc))
  /\ (dotenv_values host = None ->
      paths_truthy env_file_paths = true ->
      exists msg, env_source_provider host env_file_paths enc
                  = Err (ImportError msg))
  /\ (dotenv_values host = None ->
      exists msg, dotenv_source_provider host env_file_paths enc
                  = Err (ImportError msg)).
Proof.
  split; [|split].
  - intros T. unfold env_source_provider. rewrite T.
    split; [reflexivity|]. split.
    + intros Hn. simpl. now rewrite dict_update_nil_id.
    + intros host' E. now rewrite E.
  - intros H T. unfold env_source_provider, dotenv_source_provider.
    rewrite T, H. eexists. reflexivity.
  - intros H. unfold dotenv_source_provider. rewrite H. eexists. reflexivity.
Qed.


Section Loading.
Variable host : Host.
Variable values : string -> string -> dict pyval.
Variable encoding : string.

Lemma load_dotenv_files_cons p ps acc :
  load_dotenv_files host values encoding (p :: ps) acc =
  load_dotenv_files host values encoding ps
    (if is_file host (expanduser host p)
     then dict_update acc (values (expanduser host p) encoding) else acc).
Proof.
  unfold load_dotenv_files. simpl.
  now destruct (is_file host (expanduser host p)).
Qed.

Lemma load_dotenv_files_silent k ps : forall acc,
  Forall (fun p => is_file host (expanduser host p) = false
                   \/ k ∉ dict_keys (values (expanduser host p) encoding)) ps ->
  dict_get k (load_dotenv_files host values encoding ps acc) = dict_get k acc.
Proof.
  induction ps as [|p ps IH]; intros acc H; [reflexivity|].
  apply Forall_cons in H as [Hp H].
  rewrite load_dotenv_files_cons, IH by exact H.
  destruct (is_file host (expanduser host p)) eqn:F; [|reflexivity].
  destruct Hp as [Hp|Hp]; [discriminate|]. now apply dict_get_update_absent.
Qed.

Lemma load_dotenv_files_none ps : forall acc,
  Forall (fun p => is_file host (expanduser host p) = false) ps ->
  load_dotenv_files host values encoding ps acc = acc.
Proof.
  induction ps as [|p ps IH]; intros acc H; [reflexivity|].
  apply Forall_cons in H as [Hp H].
  now rewrite load_dotenv_files_cons, Hp, IH.
Qed.

Lemma load_dotenv_files_app ps qs acc :
  load_dotenv_files host values encoding (ps ++ qs) acc =
  load_dotenv_files host values encoding qs
    (load_dotenv_files host values encoding ps acc).
Proof. unfold load_dotenv_files. apply fold_left_app. Qed.
End Loading.

Lemma env_source_provider_loaded host values env_file_paths enc :
  dotenv_values host = Some values ->
  paths_truthy env_file_paths = true ->
  env_source_provider host env_file_paths enc =
  Ok (dict_update
        (load_dotenv_files host values (effective_encoding enc)
           (paths_of env_file_paths) [])
        (environ host)).
Proof.
  intros Hi T. destruct env_file_paths as [[p|ps]|]; [| |discriminate].
  - apply env_source_provider_path; [exact Hi|].
    simpl in T. intros ->. discriminate.
  - now apply env_source_provider_paths.
Qed.

(** X15.  With python-dotenv, the dotenv values are those of the paths that
    are files, read in the order of the paths: a key has the value of the
    last file that sets it, whatever the files before set, and when no path
    is a file the provider returns the process environment alone. *)
Theorem last_dotenv_file_wins host values encoding :
  (forall before p after acc k v,
      is_file host (expanduser host p) = true ->
      NoDup (dict_keys (values (expanduser host p) encoding)) ->
      dict_get k (values (expanduser host p) encoding) = Some v ->
      Forall (fun q => is_file host (expanduser host q) = false
                       \/ k ∉ dict_keys (values (expanduser host q) encoding))
        after ->
      dict_get k (load_dotenv_files host values encoding (before ++ p :: after) acc)
        = Some v)
  /\ (forall ps acc k,
      Forall (fun q => is_file host (expanduser host q) = false
                       \/ k ∉ dict_keys (values (expanduser host q) encoding)) ps ->
      dict_get k (load_dotenv_files host values encoding ps acc) = dict_get k acc)
  /\ (forall env_file_paths enc,
      dotenv_values host = Some values ->
      NoDup (dict_keys (environ host)) ->
      Forall (fun q => is_file host (expanduser host q) = false)
        (paths_of env_file_paths) ->
      env_source_provider host env_file_paths enc = Ok (environ host)).
Proof.
  split; [|split].
  - intros before p after acc k v Hf Hn Hk Hafter.
    rewrite load_dotenv_files_app, load_dotenv_files_cons, Hf.
    rewrite load_dotenv_files_silent by exact Hafter.
    now apply dict_get_update_present.
  - intros. now apply load_dotenv_files_silent.
  - intros env_file_paths enc Hi Hn Hall.
    destruct (paths_truthy env_file_paths) eqn:T.
    + rewrite (env_source_provider_loaded host values _ enc Hi T).
      rewrite load_dotenv_files_none by exact Hall.
      now rewrite dict_update_nil_id.
    + unfold env_source_provider. rewrite T. simpl.
      now rewrite dict_update_nil_id.
Qed.


Lemma dict_keys_update_prefix {V} (b : dict V) : forall a : dict V,
  exists extra, dict_keys (dict_update a b) = dict_keys a ++ extra.
Proof.
  unfold dict_update.
  induction b as [|[k v] b IH]; intros a; simpl.
  - exists []. now rewrite app_nil_r.
  - destruct (IH (dict_set k v a)) as [extra E]. rewrite E, dict_keys_set.
    destruct (dict_mem k a); [now exists extra|].
    exists ([k] ++ extra). now rewrite app_assoc.
Qed.

Lemma find_app_Some {A} (p : A -> bool) l1 l2 x :
  find p l1 = Some x -> find p (l1 ++ l2) = Some x.
Proof.
  induction l1 as [|y l1 IH]; simpl; [discriminate|].
  destruct (p y); [trivial | exact IH].
Qed.

(** X16.  The keys of the dotenv files come before those of the process
    environment in the mapping of the environment provider.  So in the
    case-insensitive index of that mapping, a normal form that a key of the
    files has points at the first such key of the files, also when the
    process environment has a key with that normal form in another case;
    when the process environment does not have that very key, its value is
    the one of the files. *)
Theorem dotenv_key_shadows_other_case host values env_file_paths enc n k :
  dotenv_values host = Some values ->
  paths_truthy env_file_paths = true ->
  find (fun k' => String.eqb (lower k') n)
    (dict_keys (load_dotenv_files host values (effective_encoding enc)
                  (paths_of env_file_paths) [])) = Some k ->
  exists vars,
    env_source_provider host env_file_paths enc = Ok vars /\
    dict_get n (build_keymap false (dict_keys vars)) = Some k /\
    (k ∉ dict_keys (environ host) ->
     dict_get k vars =
     dict_get k (load_dotenv_files host values (effective_encoding enc)
                   (paths_of env_file_paths) [])).
Proof.
  intros Hi T Hf. eexists.
  split; [exact (env_source_provider_loaded host values _ enc Hi T)|].
  split.
  - rewrite build_keymap_get.
    destruct (dict_keys_update_prefix (environ host)
                (load_dotenv_files host values (effective_encoding enc)
                   (paths_of env_file_paths) [])) as [extra ->].
    now apply find_app_Some.
  - intros Hk. now apply dict_get_update_absent.
Qed.


(** * Properties of the secrets *)

(** ** Stripping *)

Lemma lstrip_length s : String.length (lstrip s) <= String.length s.
Proof.
  induction s as [|c r IH]; simpl; [lia|].
  destruct (is_space c); simpl; lia.
Qed.

Lemma lstrip_fixed_head c r :
  lstrip (String c r) = String c r -> is_space c = false.
Proof.
  simpl. destruct (is_space c); [|reflexivity].
  intros H. pose proof (lstrip_length r) as L. rewrite H in L. simpl in L. lia.
Qed.

Lemma lstrip_idem s : lstrip (lstrip s) = lstrip s.
Proof.
  induction s as [|c r IH]; simpl; [reflexivity|].
  destruct (is_space c) eqn:E; [exact IH|]. simpl. now rewrite E.
Qed.

Lemma rstrip_idem s : rstrip (rstrip s) = rstrip s.
Proof.
  induction s as [|c r IH]; simpl; [reflexivity|].
  destruct (rstrip r) as [|c' r'] eqn:E.
  - destruct (is_space c) eqn:S; simpl; [reflexivity | now rewrite S].
  - cbn [rstrip]. cbn [rstrip] in IH. now rewrite IH.
Qed.

Lemma rstrip_head c r :
  is_space c = false -> exists r', rstrip (String c r) = String c r'.
Proof.
  intros H. simpl. destruct (rstrip r); [rewrite H|]; eexists; reflexivity.
Qed.

Lemma lstrip_rstrip s : lstrip s = s -> lstrip (rstrip s) = rstrip s.
Proof.
  destruct s as [|c r]; [reflexivity|]. intros H.
  pose proof (lstrip_fixed_head c r H) as Hc.
  destruct (rstrip_head c r Hc) as [r' ->]. simpl. now rewrite Hc.
Qed.

Lemma lstrip_spaces_app ws s :
  all_space ws = true -> lstrip (ws ++ s) = lstrip s.
Proof.
  induction ws as [|c ws IH]; simpl; [reflexivity|].
  intros H. apply andb_true_iff in H as [Hc H]. rewrite Hc. now apply IH.
Qed.

Lemma rstrip_spaces ws : all_space ws = true -> rstrip ws = EmptyString.
Proof.
  induction ws as [|c ws IH]; simpl; [reflexivity|].
  intros H. apply andb_true_iff in H as [Hc H]. now rewrite IH, Hc.
Qed.

Lemma rstrip_app_spaces s ws :
  all_space ws = true -> rstrip (s ++ ws) = rstrip s.
Proof.
  intros H. induction s as [|c r IH]; simpl; [now apply rstrip_spaces|].
  now rewrite IH.
Qed.

Lemma lstrip_spaces ws : all_space ws = true -> lstrip ws = EmptyString.
Proof.
  induction ws as [|c ws IH]; simpl; [reflexivity|].
  intros H. apply andb_true_iff in H as [Hc H]. rewrite Hc. now apply IH.
Qed.

Lemma strip_padded ws1 body ws2 :
  all_space ws1 = true -> all_space ws2 = true ->
  lstrip body = body -> rstrip body = body ->
  ascii_strip (ws1 ++ body ++ ws2) = body.
Proof.
  intros H1 H2 Hl Hr. unfold ascii_strip. rewrite lstrip_spaces_app by exact H1.
  destruct body as [|c r].
  - simpl. now rewrite lstrip_spaces.
  - pose proof (lstrip_fixed_head c r Hl) as Hc.
    change (String c r ++ ws2)%string with (String c (r ++ ws2)).
    cbn [lstrip]. rewrite Hc.
    change (String c (r ++ ws2)) with (String c r ++ ws2)%string.
    now rewrite rstrip_app_spaces.
Qed.

(** ** The names and the values of the secrets *)

Section Secrets.
Variables (fs : FileSystem) (dir : string).
Hypothesis Hlisting : NoDup (fs_iterdir fs dir).

Lemma valid_paths_fold listing : forall paths : dict string,
  NoDup (dict_keys paths ++ listing) ->
  fold_left
    (fun paths f => if fs_is_file fs dir f then dict_set f f paths else paths)
    listing paths
  = paths ++ map (fun f => (f, f)) (List.filter (fs_is_file fs dir) listing).
Proof.
  induction listing as [|f listing IH]; intros paths H; simpl.
  - now rewrite app_nil_r.
  - assert (Hnin : f ∉ dict_keys paths).
    { apply NoDup_app in H as (_ & H & _). intros Hin.
      apply (H _ Hin). apply elem_of_cons. now left. }
    destruct (fs_is_file fs dir f) eqn:F.
    + rewrite dict_set_absent by exact Hnin. rewrite IH.
      * simpl. now rewrite <- app_assoc.
      * unfold dict_keys. rewrite map_app. simpl. now rewrite <- app_assoc.
    + apply IH.
      apply NoDup_app in H as (H1 & H2 & H3).
      apply NoDup_cons in H3 as [_ H3].
      apply NoDup_app. repeat split; [exact H1 | | exact H3].
      intros x Hx Hl. apply (H2 x Hx). apply elem_of_cons. now right.
Qed.

Lemma valid_paths_listing :
  valid_paths (new_secret_source fs dir)
  = map (fun f => (f, f)) (List.filter (fs_is_file fs dir) (fs_iterdir fs dir)).
Proof.
  unfold new_secret_source. cbn [valid_paths].
  now rewrite valid_paths_fold.
Qed.

Lemma dict_get_diagonal {V} (g : string -> V) (l : list string) k :
  dict_get k (map (fun f => (f, g f)) l) =
  if existsb (String.eqb k) l then Some (g k) else None.
Proof.
  induction l as [|f l IH]; simpl; [reflexivity|].
  destruct (String.eqb_spec k f) as [->|_]; [reflexivity | exact IH].
Qed.

Lemma existsb_filter (p : string -> bool) l k :
  existsb (String.eqb k) (List.filter p l) = existsb (String.eqb k) l && p k.
Proof.
  induction l as [|f l IH]; simpl; [reflexivity|].
  destruct (p f) eqn:P; simpl; rewrite IH;
    destruct (String.eqb_spec k f) as [->|_]; simpl;
    rewrite ?P, ?andb_false_r; reflexivity.
Qed.

Lemma secret_getitem_listing key :
  secret_getitem fs (new_secret_source fs dir) key =
  if existsb (String.eqb key) (fs_iterdir fs dir) && fs_is_file fs dir key
  then match fs_read_text fs dir key with
       | Ok text => Ok (Some (strip text))
       | Err e => Err e
       end
  else Ok None.
Proof.
  unfold secret_getitem. rewrite valid_paths_listing.
  rewrite (dict_get_diagonal (fun f => f)), existsb_filter.
  now destruct (existsb _ _ && _).
Qed.
End Secrets.

(** X17.  The names of a [SecretSource] are the names of the entries of the
    directory that are files, in the order of the listing, each once; its
    length is their number.  Directories among the entries are left out. *)
Theorem secret_names_are_the_files fs dir :
  NoDup (fs_iterdir fs dir) ->
  secret_iter (new_secret_source fs dir)
    = List.filter (fs_is_file fs dir) (fs_iterdir fs dir)
  /\ secret_len (new_secret_source fs dir)
     = length (List.filter (fs_is_file fs dir) (fs_iterdir fs dir))
  /\ (forall f, f ∈ secret_iter (new_secret_source fs dir) <->
                f ∈ fs_iterdir fs dir /\ fs_is_file fs dir f = true).
Proof.
  intros H. unfold secret_iter, secret_len.
  rewrite (valid_paths_listing fs dir H).
  assert (E : dict_keys (map (fun f : string => (f, f))
                (List.filter (fs_is_file fs dir) (fs_iterdir fs dir)))
              = List.filter (fs_is_file fs dir) (fs_iterdir fs dir)).
  { unfold dict_keys. rewrite map_map. simpl. apply map_id. }
  rewrite E, length_map.
  split; [reflexivity|]. split; [reflexivity|].
  intros f. rewrite list_elem_of_In, filter_In, <- list_elem_of_In. reflexivity.
Qed.


(** X18.  Asking a [SecretSource] for the name of an entry of the
    directory that is a file reads that file: the value is its text,
    stripped, and an exception of the reading is not caught.  For any other
    name the value is [None], not a [KeyError], and no file is read.  When
    the text is ASCII and made of white space, a body without white space at
    its ends, and white space, the value is the body. *)
Theorem secret_value_is_stripped_text fs dir key :
  NoDup (fs_iterdir fs dir) ->
  secret_getitem fs (new_secret_source fs dir) key =
    (if existsb (String.eqb key) (fs_iterdir fs dir) && fs_is_file fs dir key
     then match fs_read_text fs dir key with
          | Ok text => Ok (Some (strip text))
          | Err e => Err e
          end
     else Ok None)
  /\ (forall ws1 body ws2,
        existsb (String.eqb key) (fs_iterdir fs dir) = true ->
        fs_is_file fs dir key = true ->
        fs_read_text fs dir key = Ok (ws1 ++ body ++ ws2)%string ->
        ascii_only (ws1 ++ body ++ ws2) = true ->
        all_space ws1 = true -> all_space ws2 = true ->
        lstrip body = body -> rstrip body = body ->
        secret_getitem fs (new_secret_source fs dir) key = Ok (Some body)).
Proof.
  intros H. pose proof (secret_getitem_listing fs dir H key) as E.
  split; [exact E|].
  intros ws1 body ws2 Hin Hf Ht Ha H1 H2 Hl Hr.
  rewrite E, Hin, Hf, Ht. simpl. do 2 f_equal.
  rewrite (strip_ascii_only _ Ha). now apply strip_padded.
Qed.

End Program.

(** * The text operations and ASCII keys *)

Section Independence.
Variables (T1 T2 : Text) (m : SourceMapper).
Hypothesis Hascii : Forall (fun k => ascii_only k = true) (dict_keys (source m)).

Lemma build_keymap_ascii case_sensitive keys :
  Forall (fun k => ascii_only k = true) keys ->
  build_keymap (text_ops := T1) case_sensitive keys
  = build_keymap (text_ops := T2) case_sensitive keys.
Proof.
  unfold build_keymap. generalize (@nil (string * string)).
  intros acc H. revert acc.
  induction H as [|k keys Hk _ IH]; intros acc; [reflexivity|].
  cbn [fold_left]. cbv zeta.
  assert (E : normalize (text_ops := T1) case_sensitive k
              = normalize (text_ops := T2) case_sensitive k).
  { unfold normalize. destruct case_sensitive; [reflexivity|].
    now rewrite (lower_ascii_only (Text := T1) k Hk),
                (lower_ascii_only (Text := T2) k Hk). }
  rewrite E. apply IH.
Qed.

Lemma keymap_ascii st :
  keymap (text_ops := T1) m st = keymap (text_ops := T2) m st.
Proof. unfold keymap. now rewrite (build_keymap_ascii _ _ Hascii). Qed.

Lemma probe_ascii field key st :
  probe (text_ops := T1) m field key st = probe (text_ops := T2) m field key st.
Proof. unfold probe. apply bind_ext; [apply keymap_ascii | reflexivity]. Qed.

Lemma loop_ascii field names : forall acc st,
  get_field_value_loop (text_ops := T1) m field names acc st
  = get_field_value_loop (text_ops := T2) m field names acc st.
Proof.
  induction names as [|key names IH]; intros acc st; [reflexivity|].
  rewrite (loop_cons (text_ops := T1)), (loop_cons (text_ops := T2)), probe_ascii.
  destruct (probe m field key st) as [[[| d | v]|e] st1];
    try reflexivity; apply IH.
Qed.

Lemma update_ascii field : forall prefix result st,
  update_result_for_field (text_ops := T1) m field prefix result st
  = update_result_for_field (text_ops := T2) m field prefix result st.
Proof.
  induction field as [n a e ee c u sf tf IH] using ModelField_nested_ind.
  intros prefix result st.
  rewrite (update_result_for_field_eq (text_ops := T1)),
          (update_result_for_field_eq (text_ops := T2)). cbv zeta.
  apply bind_ext; [intros; apply loop_ascii | intros r st1].
  apply bind_ext; [reflexivity | intros _ st2].
  cbn [type_fields alias]. destruct tf as [fs|]; [|reflexivity].
  destruct (delimiter_set m) as [delimiter|]; [|reflexivity].
  apply for_each_ext, Forall_forall. intros nm _ st3.
  apply for_each_ext. eapply Forall_impl; [exact IH|].
  intros f Hf st4. simpl.
  apply bind_ext; [reflexivity | intros sub st5; apply Hf].
Qed.

Lemma call_ascii fields st :
  call (text_ops := T1) m fields st = call (text_ops := T2) m fields st.
Proof.
  unfold call. apply bind_ext; [reflexivity | intros l st1].
  apply bind_ext; [|reflexivity].
  apply for_each_ext, Forall_forall. intros f _ st2. apply update_ascii.
Qed.
End Independence.

(** X21.  Over a source whose keys are ASCII text, the mapper does not
    depend on what [str.lower] does outside ASCII: the key index, the
    response of [get_field_value] and the outcome of a call, with the state
    they leave, are the same for any two pairs of text operations. *)
Theorem ascii_keys_fix_the_mapper (T1 T2 : Text) m :
  Forall (fun k => ascii_only k = true) (dict_keys (source m)) ->
  build_keymap (text_ops := T1) (case_sensitive m) (dict_keys (source m))
  = build_keymap (text_ops := T2) (case_sensitive m) (dict_keys (source m))
  /\ (forall names field st,
        get_field_value (text_ops := T1) m names field st
        = get_field_value (text_ops := T2) m names field st)
  /\ (forall fields st,
        call (text_ops := T1) m fields st = call (text_ops := T2) m fields st).
Proof.
  intros H. split; [now apply build_keymap_ascii|]. split.
  - intros names field st. apply (loop_ascii T1 T2 m H).
  - apply (call_ascii T1 T2 m H).
Qed.

Lemma ascii_keys_fix_the_mapper_witness :
  lower (Text := latin1_text) (String (ascii_of_nat 201) EmptyString)
    <> lower (Text := ascii_text) (String (ascii_of_nat 201) EmptyString)
  /\ call (text_ops := latin1_text) (fst environment_mapper) environment_fields
       (snd environment_mapper)
     = call (text_ops := ascii_text) (fst environment_mapper) environment_fields
         (snd environment_mapper).
Proof.
  split; [discriminate|].
  apply (proj2 (proj2 (ascii_keys_fix_the_mapper latin1_text ascii_text
                         (fst environment_mapper) ltac:(repeat constructor)))).
Defined.

(** * Examples

    The examples are on ASCII text, where [str.lower] and [str.strip] are
    the two functions of [ascii_text]; their sources have ASCII keys, over
    which the mapper does not depend on the text operations. *)

#[local] Existing Instance ascii_text.

Lemma keymap_first_key_wins_witness :
  build_keymap false ["Foo"; "FOO"; "Bar"; "foo"] = [("foo", "Foo"); ("bar", "Bar")]
  /\ build_keymap true ["Foo"; "FOO"; "Bar"; "foo"]
     = [("Foo", "Foo"); ("FOO", "FOO"); ("Bar", "Bar"); ("foo", "foo")]
  /\ dict_get "foo" (build_keymap false ["Foo"; "FOO"; "Bar"; "foo"]) = Some "Foo"
  /\ build_keymap false (["Foo"] ++ "FOO" :: ["Bar"; "foo"])
     = build_keymap false (["Foo"] ++ ["Bar"; "foo"])
  /\ has_upper "bar" = false.
Proof.
  destruct (keymap_first_key_wins (text_ops := ascii_text) false ["Foo"; "FOO"; "Bar"; "foo"])
    as (_ & _ & _ & H4 & H5 & H6).
  split; [reflexivity|]. split; [reflexivity|]. split; [|split].
  - apply (H4 [] "Foo" ["FOO"; "Bar"; "foo"] eq_refl).
    intros k' H. now apply elem_of_nil in H.
  - apply (H5 ["Foo"] "FOO" ["Bar"; "foo"] eq_refl).
    exists "Foo". split; [apply elem_of_cons; now left | reflexivity].
  - apply (H6 eq_refl).
    + repeat constructor.
    + apply list_elem_of_In. simpl. auto.
Defined.

Lemma first_scalar_wins_witness :
  get_value (precedence_mapper true) (["Z"] ++ "A" :: ["B"]) (simple_field "x" [])
    = Ok (RVal (HStr "1"))
  /\ get_value (precedence_mapper true) ("B" :: ["A"]) (simple_field "x" [])
    = Ok (RVal (HStr "2"))
  /\ get_value (precedence_mapper true) ["A"; "B"] (simple_field "x" [])
    = Ok (RVal (HStr "1")).
Proof.
  destruct (first_scalar_wins (text_ops := ascii_text)) as (H1 & H2 & H3).
  unfold get_value. split; [|split].
  - erewrite (H1 (fst (precedence_mapper true)) (simple_field "x" []) ["Z"] "A" ["B"]
                 (snd (precedence_mapper true))); reflexivity.
  - erewrite (H2 (fst (precedence_mapper true)) (simple_field "x" []) "B" "B" (HStr "2"));
      try reflexivity; try discriminate. left. reflexivity.
  - erewrite (H3 (fst (precedence_mapper true)) (simple_field "x" [])
                 (HStr "1") (HStr "2"));
      try reflexivity; try discriminate. left. reflexivity.
Defined.

(** C1 as stated fails in the case-insensitive mode, the default: the index
    holds the lower-cased keys, and the names "A" and "B" are not in it. *)
Lemma first_scalar_wins_counterexample :
  dict_get "A" (source (fst (precedence_mapper false))) = Some (HStr "1")
  /\ dict_get "B" (source (fst (precedence_mapper false))) = Some (HStr "2")
  /\ get_value (precedence_mapper false) ["A"; "B"] (simple_field "x" [])
     = Ok REmpty.
Proof. repeat split. Qed.



Lemma fragments_are_merged_witness :
  get_value split_mapper ["X"; "X_SUB"; "X_MORE"] (complex_field "x" [])
    = Ok (RDict [("a", HInt 2); ("b", HInt 3)])
  /\ get_value split_mapper ["X"; "X_SUB"] (complex_field "x" [])
    = Ok (RDict [("a", HInt 1)])
  /\ get_value split_mapper ["X"] (complex_field "x" []) = Ok REmpty.
Proof.
  unfold get_value. split; [|split].
  - erewrite (proj1 (fragments_are_merged (text_ops := ascii_text) (fst split_mapper) (complex_field "x" [])
      ["X"; "X_SUB"; "X_MORE"] (snd split_mapper) _ _ eq_refl)). reflexivity.
  - erewrite (proj1 (fragments_are_merged (text_ops := ascii_text) (fst split_mapper) (complex_field "x" [])
      ["X"; "X_SUB"] (snd split_mapper) _ _ eq_refl)). reflexivity.
  - erewrite (proj1 (fragments_are_merged (text_ops := ascii_text) (fst split_mapper) (complex_field "x" [])
      ["X"] (snd split_mapper) _ _ eq_refl)). reflexivity.
Defined.

Lemma decode_failure_policy_witness :
  fst (call (fst broken_mapper) [complex_field "v" ["V"]] (snd broken_mapper))
    = Err (parse_error "V")
  /\ (exists st3 l,
        call (fst broken_mapper) [union_field "v" ["V"]] (snd broken_mapper)
          = (Ok (HRef 0), st3) /\ HRef 0 = HRef l /\
        dict_get "v" (heap_get (heap st3) l) = Some (HStr "not json"))
  /\ fst (call (fst deep_broken_mapper) ([] ++ deep_field :: [])
            (snd deep_broken_mapper))
     = Err (parse_error "A__B__OPTS")
  /\ fst (get_field_value (fst failing_mapper) ([] ++ "b" :: [])
            (union_field "x" []) (snd failing_mapper))
     = Err ParserError.
Proof.
  assert (Hc : cache_ok (fst broken_mapper) (snd broken_mapper))
    by (left; reflexivity).
  assert (Hsk : "V" <> EmptyString) by discriminate.
  assert (Hn : HStr "not json" <> HNone) by discriminate.
  split; [|split; [|split]].
  - pose proof (decode_failure_policy (text_ops := ascii_text)
                  (fst broken_mapper) (complex_field "v" ["V"])
                  [] "V" [] "V" (HStr "not json")
                  eq_refl Hsk eq_refl Hn eq_refl) as (_ & _ & _ & _ & _ & H & _).
    pose proof (H eq_refl [] [] (snd broken_mapper) _ _ _ _
                  Hc eq_refl eq_refl eq_refl eq_refl eq_refl) as E.
    cbn [app] in E. rewrite E. reflexivity.
  - pose proof (decode_failure_policy (text_ops := ascii_text)
                  (fst broken_mapper) (union_field "v" ["V"])
                  [] "V" [] "V" (HStr "not json")
                  eq_refl Hsk eq_refl Hn eq_refl) as (_ & _ & _ & _ & _ & _ & H).
    exact (H eq_refl [] (snd broken_mapper) _ _ _ _
             Hc eq_refl eq_refl eq_refl eq_refl eq_refl eq_refl).
  - assert (Hsk' : "A__B__OPTS" <> EmptyString) by discriminate.
    pose proof (decode_failure_policy (text_ops := ascii_text)
                  (fst deep_broken_mapper) (complex_field "opts" ["OPTS"])
                  [] "A__B__OPTS" [] "A__B__OPTS" (HStr "not json")
                  eq_refl Hsk' eq_refl Hn eq_refl) as (_ & _ & H3 & _ & H5 & _).
    erewrite (H5 (parse_error "A__B__OPTS") [] deep_field []
                (snd deep_broken_mapper) _ _ _ eq_refl); [reflexivity|].
    eapply (raises_below (text_ops := ascii_text) _ _ _ _ _ _
              [model_field "b" ["B"] [complex_field "opts" ["OPTS"]]] "__"
              [] "A" [] [] (model_field "b" ["B"] [complex_field "opts" ["OPTS"]]) []);
      [reflexivity..|].
    eapply (raises_below (text_ops := ascii_text) _ _ _ _ _ _
              [complex_field "opts" ["OPTS"]] "__"
              [] "A__B" [] [] (complex_field "opts" ["OPTS"]) []);
      [reflexivity..|].
    eapply (H3 eq_refl eq_refl); [right; reflexivity | reflexivity.. ].
  - assert (Hb : "b" <> EmptyString) by discriminate.
    assert (H2 : HStr "2" <> HNone) by discriminate.
    assert (Hc2 : cache_ok (fst failing_mapper) (snd failing_mapper))
      by (left; reflexivity).
    pose proof (decode_failure_policy (text_ops := ascii_text)
                  (fst failing_mapper) (union_field "x" [])
                  [] "b" [] "b" (HStr "2")
                  eq_refl Hb eq_refl H2 eq_refl) as (_ & H & _).
    now rewrite (H eq_refl eq_refl (snd failing_mapper) REmpty (snd failing_mapper)
                   Hc2 eq_refl eq_refl).
Defined.

(** C3 as stated fails on what makes a type tolerate the failure.  A union
    with complex branches only is not a union with a non-complex branch, and
    the undecoded value is stored without an error; a field that is complex
    by itself raises the error although its type is a union with a
    non-complex branch. *)
Lemma decode_failure_policy_counterexample :
  (field_is_complex complex_union_field = (true, true)
   /\ forallb is_complex (sub_fields complex_union_field) = true
   /\ call_once broken_mapper [complex_union_field]
      = Ok (PDict [("v", PStr "not json")]))
  /\ (is_complex list_of_union_field = true
      /\ type_is_union list_of_union_field = true
      /\ existsb (fun f => negb (is_complex f)) (sub_fields list_of_union_field) = true
      /\ call_once broken_mapper [list_of_union_field] = Err (parse_error "V")).
Proof. repeat split. Qed.



(** C6, where the code departs from it: with a nesting delimiter, a field
    whose type is a model and for which nothing is found in the source (here
    the source is empty) is in the result, with an empty dictionary. *)
Theorem unmatched_model_field_gets_placeholder :
  source (fst empty_mapper) = []
  /\ call_once empty_mapper [unmatched_field] = Ok (PDict [("db", PDict [])]).
Proof. split; reflexivity. Qed.

(** C9, where the code departs from it: the dictionary that the source
    holds under "a" / "b" is shared with the result and written by the first
    call, and the second call on the same source and fields raises instead
    of returning the result of the first. *)
Theorem second_call_differs :
  reify 8 (heap (snd shared_mapper)) (HRef 1) = PDict [("b", PDict [])]
  /\ call_twice shared_mapper shared_fields
     = (Ok (PDict [("a", PDict [("b", PDict [("f", PStr "5")])])]),
        Err AttributeError)
  /\ reify 8
       (heap (snd (call (fst shared_mapper) shared_fields (snd shared_mapper))))
       (HRef 1)
     = PDict [("b", PDict [("f", PStr "5")])].
Proof. repeat split. Qed.

Lemma falsy_source_key_is_skipped_witness :
  dict_get EmptyString (source (fst empty_key_mapper)) = Some (HStr "hidden")
  /\ get_field_value (fst empty_key_mapper) (EmptyString :: ["a"]) (simple_field "x" [EmptyString])
       (snd empty_key_mapper)
     = get_field_value (fst empty_key_mapper) ["a"] (simple_field "x" [EmptyString])
         (cached (fst empty_key_mapper) (snd empty_key_mapper))
  /\ update_result_for_field (fst empty_key_mapper) (simple_field "x" [EmptyString]) EmptyString
       (HRef 0) (snd empty_key_mapper)
     = (Ok tt, cached (fst empty_key_mapper) (snd empty_key_mapper))
  /\ call (with_source (fst empty_key_mapper)
             [(EmptyString, HStr "other"); ("a", HStr "1")])
       [simple_field "x" [EmptyString; "a"]] (snd empty_key_mapper)
     = call (fst empty_key_mapper)
         [simple_field "x" [EmptyString; "a"]] (snd empty_key_mapper).
Proof.
  split; [reflexivity|].
  destruct (falsy_source_key_is_skipped (text_ops := ascii_text) (fst empty_key_mapper)
              (simple_field "x" [EmptyString]) EmptyString ["a"] (snd empty_key_mapper))
    as (H1 & _ & H3 & H4); [left; reflexivity | reflexivity |].
  split; [exact H1|]. split; [apply H3; reflexivity|].
  apply H4; [reflexivity|].
  intros k Hk. simpl. destruct (String.eqb_spec k EmptyString); [contradiction | reflexivity].
Defined.

Lemma environment_overrides_dotenv_witness :
  (exists vars,
      env_source_provider sample_host (Some (DotenvPaths ["missing.env"; ".env"])) None
        = Ok vars /\
      dict_get "K" vars = Some (PStr "from the environment") /\
      dict_get "ONLY_FILE" vars = Some (PStr "1"))
  /\ load_dotenv_files sample_host
       (fun p _ => if String.eqb p ".env"
                   then [("K", PStr "from the file"); ("ONLY_FILE", PStr "1")]
                   else [])
       "utf8" ([] ++ "missing.env" :: [".env"]) []
     = [("K", PStr "from the file"); ("ONLY_FILE", PStr "1")].
Proof.
  assert (Hn : NoDup (dict_keys (environ sample_host)))
    by (apply NoDup_singleton).
  destruct (environment_overrides_dotenv sample_host _ eq_refl Hn)
    as (H1 & _ & _ & H4 & _).
  split.
  - destruct (H1 ["missing.env"; ".env"] None) as (vars & E & Hk).
    exists vars. split; [exact E|]. split; rewrite Hk; reflexivity.
  - rewrite H4 by reflexivity. reflexivity.
Defined.

(** C8 as stated fails: a key set both by a dotenv file and by the process
    environment has the value of the process environment. *)
Lemma environment_overrides_dotenv_counterexample :
  is_file sample_host ".env" = true
  /\ (exists values, dotenv_values sample_host = Some values /\
        dict_get "K" (values ".env" "utf8") = Some (PStr "from the file"))
  /\ dict_get "K" (environ sample_host) = Some (PStr "from the environment")
  /\ exists vars,
      env_source_provider sample_host (Some (DotenvPath ".env")) None = Ok vars /\
      dict_get "K" vars = Some (PStr "from the environment") /\
      dict_get "K" vars <> Some (PStr "from the file").
Proof.
  split; [reflexivity|]. split; [eexists; split; reflexivity|].
  split; [reflexivity|]. eexists. split; [reflexivity|].
  split; [reflexivity | discriminate].
Qed.

Lemma keymap_without_collision_witness :
  build_keymap false ["HOST"; "Port"] = [("host", "HOST"); ("port", "Port")]
  /\ dict_get (normalize false "Port") (build_keymap false ["HOST"; "Port"])
     = Some "Port".
Proof.
  assert (H : NoDup (map (normalize false) ["HOST"; "Port"])).
  { apply NoDup_cons. split; [|apply NoDup_singleton].
    intros Hin. apply list_elem_of_singleton in Hin. discriminate. }
  destruct (keymap_without_collision (text_ops := ascii_text) false ["HOST"; "Port"] H) as [E G].
  split; [exact E|]. apply G. apply elem_of_cons. right. apply elem_of_cons. now left.
Defined.

Lemma name_without_value_is_skipped_witness :
  dict_get "a" (source (fst texts_mapper)) = Some HNone
  /\ get_field_value (fst texts_mapper) ("a" :: ["b"]) (simple_field "x" [])
       (snd texts_mapper)
     = get_field_value (fst texts_mapper) ["b"] (simple_field "x" [])
         (cached (fst texts_mapper) (snd texts_mapper)).
Proof.
  split; [reflexivity|].
  apply (name_without_value_is_skipped (text_ops := ascii_text)); [left; reflexivity | reflexivity].
Defined.

Lemma other_decoder_error_propagates_witness :
  fst (get_field_value (fst failing_mapper) (["a"] ++ "b" :: []) (union_field "x" [])
         (snd failing_mapper)) = Err ParserError
  /\ fst (call (fst failing_mapper) ([] ++ union_field "x" ["a"; "b"] :: [])
            (snd failing_mapper)) = Err ParserError.
Proof.
  assert (Hc : cache_ok (fst failing_mapper) (snd failing_mapper))
    by (left; reflexivity).
  split.
  - destruct (other_decoder_error_propagates (text_ops := ascii_text) (fst failing_mapper)
                (union_field "x" []) ["a"] "b" [] (HStr "2")
                eq_refl eq_refl eq_refl eq_refl) as [H _].
    now rewrite (H (snd failing_mapper) _ _ Hc eq_refl eq_refl).
  - destruct (other_decoder_error_propagates (text_ops := ascii_text) (fst failing_mapper)
                (union_field "x" ["a"; "b"]) ["a"] "b" [] (HStr "2")
                eq_refl eq_refl eq_refl eq_refl) as [_ H].
    now rewrite (H [] [] (snd failing_mapper) _ _ _ _ Hc eq_refl eq_refl eq_refl eq_refl).
Defined.

Lemma decoded_value_is_returned_witness :
  get_field_value (fst texts_mapper) (["a"] ++ "n" :: ["b"]) (complex_field "x" [])
    (snd texts_mapper)
  = (Ok (RVal (HList [PInt 1; PInt 2])),
     cached (fst texts_mapper) (cached (fst texts_mapper) (snd texts_mapper)))
  /\ get_field_value (fst texts_mapper) ([] ++ "z" :: ["b"]) (complex_field "x" [])
       (snd texts_mapper)
     = (Ok (RVal HNone), cached (fst texts_mapper) (snd texts_mapper)).
Proof.
  assert (Hc : cache_ok (fst texts_mapper) (snd texts_mapper))
    by (left; reflexivity).
  split.
  - exact (decoded_value_is_returned (text_ops := ascii_text) (fst texts_mapper) (complex_field "x" [])
             ["a"] "n" ["b"] (HStr "[1, 2]") (PList [PInt 1; PInt 2])
             (snd texts_mapper) _ _
             Hc eq_refl eq_refl eq_refl eq_refl eq_refl eq_refl eq_refl).
  - exact (decoded_value_is_returned (text_ops := ascii_text) (fst texts_mapper) (complex_field "x" [])
             [] "z" ["b"] (HStr "null") PNone
             (snd texts_mapper) _ _
             Hc eq_refl eq_refl eq_refl eq_refl eq_refl eq_refl eq_refl).
Defined.

Lemma unmatched_field_is_absent_witness :
  (exists st',
      update_result_for_field (fst (db_mapper false))
        (model_field "db" [] [simple_field "host" ["HOST"]]) EmptyString (HRef 0)
        (mkState [[]] None) = (Ok tt, st')
      /\ heap st' = [[]])
  /\ (exists st',
      call (fst (precedence_mapper false))
        [simple_field "x" ["A"; "B"]; simple_field "y" ["c"]]
        (snd (precedence_mapper false)) = (Ok (HRef 0), st')
      /\ heap st' = [] ++ [[]]).
Proof.
  destruct (unmatched_field_is_absent (text_ops := ascii_text) (fst (db_mapper false))) as [H1 _].
  destruct (unmatched_field_is_absent (text_ops := ascii_text) (fst (precedence_mapper false))) as [_ H2].
  split.
  - apply H1; [left; reflexivity | constructor | right; right; reflexivity].
  - apply (H2 _ (snd (precedence_mapper false))); [left; reflexivity|].
    repeat constructor.
Defined.

Lemma explicit_env_is_absolute_witness :
  (field_names (fst configured_mapper) (simple_field "named" ["top"]) "p__"
     = ["top"]
   /\ update_result_for_field (fst configured_mapper) (simple_field "named" ["top"])
        "p__" (HRef 0) (mkState [[]] None)
      = update_result_for_field (fst configured_mapper) (simple_field "named" ["top"])
          EmptyString (HRef 0) (mkState [[]] None))
  /\ field_names (fst configured_mapper) (env_field "x" ["top"]) "p__" = ["top"]
  /\ field_names (fst configured_mapper) (simple_field "x" ["top"]) "p__"
     = ["p__top"].
Proof.
  split; [|split; [|reflexivity]].
  - apply (proj2 (explicit_env_is_absolute (text_ops := ascii_text) (fst configured_mapper)
                    (simple_field "named" ["top"])) eq_refl).
  - apply (proj2 (explicit_env_is_absolute (text_ops := ascii_text) (fst configured_mapper)
                    (env_field "x" ["top"])) eq_refl "p__" EmptyString (HRef 0)
             (mkState [[]] None)).
Defined.

Lemma search_only_allocates_witness :
  heap_get
    (heap (snd (get_field_value (fst (precedence_mapper false)) ["a"; "b"]
                  (simple_field "x" ["a"]) (mkState [[("k", HInt 1)]] None)))) 0
  = [("k", HInt 1)].
Proof.
  apply (proj2 (search_only_allocates (text_ops := ascii_text) (fst (precedence_mapper false)) ["a"; "b"]
                  (simple_field "x" ["a"]) (mkState [[("k", HInt 1)]] None)) 0).
  simpl. lia.
Defined.

Lemma response_is_stored_witness :
  heap_get
    (heap (snd (update_result_for_field (fst mixed_mapper) (simple_field "v" ["c"])
                  EmptyString (HRef 1) (snd mixed_mapper)))) 1
    = [("v", HStr "3"); ("w", HRef 2)]
  /\ (exists st2,
        update_result_for_field (fst mixed_mapper) (simple_field "n" ["b"])
          EmptyString (HRef 1) (snd mixed_mapper) = (Ok tt, st2) /\
        heap_get (heap st2) 1 = [("v", HStr "1"); ("w", HRef 2); ("n", HRef 3)] /\
        heap_get (heap st2) 3 = [("x", HInt 1)])
  /\ (exists st2,
        update_result_for_field (fst mixed_mapper) (simple_field "w" ["b"])
          EmptyString (HRef 1) (snd mixed_mapper) = (Ok tt, st2) /\
        heap_get (heap st2) 2 = [("y", HInt 0); ("x", HInt 1)] /\
        heap_get (heap st2) 1 = [("v", HStr "1"); ("w", HRef 2)]).
Proof.
  split; [|split].
  - destruct (response_is_stored (text_ops := ascii_text) (fst mixed_mapper) (simple_field "v" ["c"])
                EmptyString 1 (snd mixed_mapper)
                (cached (fst mixed_mapper) (snd mixed_mapper)) (or_introl eq_refl))
      as (H & _ & _).
    now rewrite (H (HStr "3") eq_refl).
  - destruct (response_is_stored (text_ops := ascii_text) (fst mixed_mapper) (simple_field "n" ["b"])
                EmptyString 1 (snd mixed_mapper)
                (cached (fst mixed_mapper) (snd mixed_mapper)) (or_introl eq_refl))
      as (_ & H & _).
    destruct (H [("x", HInt 1)] eq_refl) as (st2 & E & H1 & H2);
      [simpl; lia | reflexivity |].
    exists st2. repeat split; assumption.
  - destruct (response_is_stored (text_ops := ascii_text) (fst mixed_mapper) (simple_field "w" ["b"])
                EmptyString 1 (snd mixed_mapper)
                (cached (fst mixed_mapper) (snd mixed_mapper)) (or_introl eq_refl))
      as (_ & _ & H).
    destruct (H [("x", HInt 1)] 2 eq_refl) as (st2 & E & H1 & H2);
      [simpl; lia | simpl; lia | reflexivity |].
    exists st2. split; [exact E|]. split; [exact H1|].
    rewrite H2; [reflexivity | discriminate | simpl; lia].
Defined.

Lemma mapping_on_scalar_raises_witness :
  fst (update_result_for_field (fst mixed_mapper) (simple_field "v" ["b"])
         EmptyString (HRef 1) (snd mixed_mapper)) = Err AttributeError.
Proof.
  assert (Hl : 1 < length (heap (cached (fst mixed_mapper) (snd mixed_mapper))))
    by (simpl; lia).
  now rewrite (mapping_on_scalar_raises (text_ops := ascii_text) (fst mixed_mapper) (simple_field "v" ["b"])
                 EmptyString 1 (snd mixed_mapper) _ [("x", HInt 1)] (HStr "1")
                 (or_introl eq_refl) eq_refl Hl eq_refl eq_refl).
Defined.

Lemma mapping_values_are_not_decoded_witness :
  call (with_parser (fst mappings_mapper) (fun _ _ => ParseOtherError))
    [model_field "a" ["a"; "b"] [complex_field "y" ["y"]]] (snd mappings_mapper)
  = call (fst mappings_mapper)
      [model_field "a" ["a"; "b"] [complex_field "y" ["y"]]] (snd mappings_mapper).
Proof.
  apply (mapping_values_are_not_decoded (text_ops := ascii_text)).
  constructor; [left; reflexivity|]. constructor; [right; reflexivity|].
  constructor; [left; reflexivity|]. constructor.
Defined.

Lemma nesting_needs_delimiter_witness :
  update_result_for_field (fst (precedence_mapper false))
    (with_type_fields (simple_field "x" ["a"]) (Some [simple_field "y" ["b"]]))
    EmptyString (HRef 0) (mkState [[]] None)
  = update_result_for_field (fst (precedence_mapper false))
      (simple_field "x" ["a"]) EmptyString (HRef 0) (mkState [[]] None).
Proof.
  apply (proj2 (nesting_needs_delimiter (text_ops := ascii_text) (fst (precedence_mapper false))) eq_refl).
Defined.

Lemma plain_fields_are_assigned_first_values_witness :
  exists st',
    call (fst environment_mapper) environment_fields (snd environment_mapper)
      = (Ok (HRef 0), st')
    /\ heap st' = [] ++ [[("host", HStr "80"); ("port", HStr "80")]].
Proof.
  apply (plain_fields_are_assigned_first_values (text_ops := ascii_text)
           (fst environment_mapper) environment_fields (snd environment_mapper)).
  - repeat constructor.
  - left. reflexivity.
  - repeat constructor.
Defined.

Lemma plain_call_is_repeatable_witness :
  observe 2
    (call (fst environment_mapper) environment_fields
       (snd (call (fst environment_mapper) environment_fields
               (snd environment_mapper))))
  = observe 2
      (call (fst environment_mapper) environment_fields (snd environment_mapper)).
Proof.
  apply (plain_call_is_repeatable (text_ops := ascii_text)).
  - repeat constructor.
  - left. reflexivity.
  - repeat constructor.
Defined.

Lemma dotenv_needed_only_for_paths_witness :
  env_source_provider bare_host (Some (DotenvPaths [])) None
    = Ok [("K", PStr "from the environment")]
  /\ (exists msg, dotenv_source_provider bare_host None None
                  = Err (ImportError msg))
  /\ (exists msg, env_source_provider bare_host (Some (DotenvPath ".env")) None
                  = Err (ImportError msg)).
Proof.
  split; [|split].
  - apply (proj1 (proj2 (proj1 (dotenv_needed_only_for_paths bare_host
                                  (Some (DotenvPaths [])) None) eq_refl))).
    apply NoDup_singleton.
  - apply (proj2 (proj2 (dotenv_needed_only_for_paths bare_host None None)) eq_refl).
  - apply (proj1 (proj2 (dotenv_needed_only_for_paths bare_host
                           (Some (DotenvPath ".env")) None)) eq_refl eq_refl).
Defined.

Lemma last_dotenv_file_wins_witness :
  dict_get "MODE"
    (load_dotenv_files two_files_host
       (fun p _ =>
          if String.eqb p "a.env"
          then [("api_key", PStr "from a.env"); ("MODE", PStr "a")]
          else if String.eqb p "b.env" then [("MODE", PStr "b")] else [])
       "utf8" (["a.env"] ++ "b.env" :: ["c.env"]) [])
    = Some (PStr "b")
  /\ env_source_provider two_files_host (Some (DotenvPaths ["c.env"; "d.env"])) None
     = Ok (environ two_files_host).
Proof.
  destruct (last_dotenv_file_wins two_files_host
              (fun p _ =>
                 if String.eqb p "a.env"
                 then [("api_key", PStr "from a.env"); ("MODE", PStr "a")]
                 else if String.eqb p "b.env" then [("MODE", PStr "b")] else [])
              "utf8") as (H1 & _ & H3).
  split.
  - apply H1; [reflexivity | apply NoDup_singleton | reflexivity |].
    constructor; [left; reflexivity | constructor].
  - apply H3; [reflexivity | |].
    + apply NoDup_cons. split; [|apply NoDup_singleton].
      intros H. apply list_elem_of_singleton in H. discriminate.
    + constructor; [reflexivity|]. constructor; [reflexivity | constructor].
Defined.

Lemma dotenv_key_shadows_other_case_witness :
  exists vars,
    env_source_provider two_files_host (Some (DotenvPath "a.env")) None = Ok vars /\
    dict_get "api_key" (build_keymap false (dict_keys vars)) = Some "api_key" /\
    dict_get "api_key" vars = Some (PStr "from a.env") /\
    dict_get "API_KEY" vars = Some (PStr "from the environment").
Proof.
  destruct (dotenv_key_shadows_other_case (text_ops := ascii_text) two_files_host _ (Some (DotenvPath "a.env"))
              None "api_key" "api_key" eq_refl eq_refl eq_refl)
    as (vars & E & Hk & Hv).
  exists vars. split; [exact E|]. split; [exact Hk|]. split.
  - rewrite Hv; [reflexivity|].
    intros H. apply elem_of_cons in H as [H|H]; [discriminate|].
    apply list_elem_of_singleton in H. discriminate.
  - injection E as <-. reflexivity.
Defined.

Lemma secret_names_are_the_files_witness :
  secret_iter (new_secret_source sample_fs "/run/secrets") = ["password"; "Token"]
  /\ secret_len (new_secret_source sample_fs "/run/secrets") = 2.
Proof.
  assert (H : NoDup (fs_iterdir sample_fs "/run/secrets")).
  { apply NoDup_ListNoDup. repeat constructor; simpl; intuition discriminate. }
  destruct (secret_names_are_the_files sample_fs "/run/secrets" H) as (E & L & _).
  split; [exact E | exact L].
Defined.

Lemma secret_value_is_stripped_text_witness :
  secret_getitem sample_fs (new_secret_source sample_fs "/run/secrets") "password"
    = Ok (Some "secret")
  /\ secret_getitem sample_fs (new_secret_source sample_fs "/run/secrets") "nested"
     = Ok None
  /\ secret_getitem sample_fs (new_secret_source sample_fs "/run/secrets") "Token"
     = Err ReadError.
Proof.
  assert (H : NoDup (fs_iterdir sample_fs "/run/secrets")).
  { apply NoDup_ListNoDup. repeat constructor; simpl; intuition discriminate. }
  split; [|split].
  - apply (proj2 (secret_value_is_stripped_text (text_ops := ascii_text) sample_fs "/run/secrets"
                    "password" H) " " "secret" newline);
      reflexivity.
  - rewrite (proj1 (secret_value_is_stripped_text (text_ops := ascii_text) sample_fs "/run/secrets"
                      "nested" H)). reflexivity.
  - rewrite (proj1 (secret_value_is_stripped_text (text_ops := ascii_text) sample_fs "/run/secrets"
                      "Token" H)). reflexivity.
Defined.
